(** * ast2vec / repo2base.py: identifier tokenizer and parse pipeline

    A shallow embedding of [Repo2Base] (src/ast2vec/repo2base.py) and the
    properties its design document states about it.

    Python strings are modelled as [string] (characters are code points
    below 256).  Generators are modelled by the list of values they yield,
    in order.  The mutable cell [prev_p] of [_split] is threaded explicitly. *)

From Stdlib Require Import List String Ascii Arith Bool ZArith Lia Permutation.
Import ListNotations.
Open Scope string_scope.
Open Scope list_scope.
Open Scope nat_scope.

(** ** Python string primitives used by the source *)

Module Py.

Definition code (c : ascii) : nat := nat_of_ascii c.

Definition between (lo hi : ascii) (c : ascii) : bool :=
  (code lo <=? code c) && (code c <=? code hi).

(** [str.islower] and [str.isupper] on a one-character string.  The source
    applies them only to characters of a fragment produced by
    [NAME_BREAKUP_RE], which are ASCII letters. *)
Definition islower (c : ascii) : bool := between "a" "z" c.
Definition isupper (c : ascii) : bool := between "A" "Z" c.

(** Membership in the character class [a-zA-Z]. *)
Definition isalpha (c : ascii) : bool := islower c || isupper c.

(** Characters removed by [str.strip()] without argument (code points
    9-13, 28-32, 0x85 and 0xA0 in the modelled range). *)
Definition isspace (c : ascii) : bool :=
  let n := code c in
  ((9 <=? n) && (n <=? 13)) || ((28 <=? n) && (n <=? 32))
  || (n =? 133) || (n =? 160).

Definition lower_char (c : ascii) : ascii :=
  if isupper c then ascii_of_nat (code c + 32) else c.

(** [str.lower] *)
Fixpoint lower (s : string) : string :=
  match s with
  | EmptyString => EmptyString
  | String c s' => String (lower_char c) (lower s')
  end.

Fixpoint lstrip (s : string) : string :=
  match s with
  | EmptyString => EmptyString
  | String c s' => if isspace c then lstrip s' else s
  end.

Fixpoint rstrip (s : string) : string :=
  match s with
  | EmptyString => EmptyString
  | String c s' =>
      match rstrip s' with
      | EmptyString => if isspace c then EmptyString else String c EmptyString
      | r => String c r
      end
  end.

(** [str.strip()] *)
Definition strip (s : string) : string := rstrip (lstrip s).

(** [s[lo:hi]] for [0 <= lo <= hi] *)
Definition slice (s : string) (lo hi : nat) : string := substring lo (hi - lo) s.

(** [s[lo:]] *)
Definition slice_from (s : string) (lo : nat) : string :=
  substring lo (String.length s - lo) s.

(** [s[:n]] *)
Definition take (n : nat) (s : string) : string := substring 0 n s.

(** [s[i]] for an index in range (the source never indexes out of range) *)
Definition char_at (s : string) (i : nat) : ascii :=
  match get i s with
  | Some c => c
  | None => zero
  end.

(** Truth value of a string: non-empty. *)
Definition truthy (s : string) : bool := negb (s =? "")%string.

(** [re.compile(r"[^a-zA-Z]+").split(s)]: the pieces between the maximal
    runs of non-letters, including the empty pieces that Python reports
    when the string starts or ends with such a run.  [in_run] tells that
    the previous character belonged to a run; [cur] is the piece being
    read. *)
Fixpoint re_split_from (in_run : bool) (cur : string) (s : string) : list string :=
  match s with
  | EmptyString => [cur]
  | String c s' =>
      if isalpha c then re_split_from false (cur ++ String c EmptyString)%string s'
      else if in_run then re_split_from true cur s'
      else cur :: re_split_from true EmptyString s'
  end.

Definition re_split (s : string) : list string := re_split_from false EmptyString s.

(** The string has no character of the class [a-zA-Z]. *)
Fixpoint only_delimiters (s : string) : bool :=
  match s with
  | EmptyString => true
  | String c s' => negb (isalpha c) && only_delimiters s'
  end.

End Py.

(** ** The tokenizer: [Repo2Base._split], [_stem], [_process_token] *)

Module Repo2Base.
Import Py.

Definition STEM_THRESHOLD : nat := 6.
Definition MAX_TOKEN_LENGTH : nat := 256.
Definition MAX_FILE_SIZE : Z := 200000.

(** The traversal of [_split], with the action taken at each
    [yield from ret(...)] left as a parameter [ret] acting on a state. *)
Section Walk.
Context {St : Type}.
Variable ret : string -> St -> St.

(** One iteration of [for i in range(1, len(part))]; the loop state is
    [(prev, pos)] together with the state of [ret]. *)
Definition scan_step (part : string) (st : ascii * nat * St) (i : nat)
  : ascii * nat * St :=
  let '(prev, pos, s) := st in
  let this := char_at part i in
  if islower prev && isupper this then
    (this, i, ret (slice part pos i) s)
  else if isupper prev && islower this then
    if (0 <? i - 1 - pos) && (i - 1 - pos <=? 3) then
      (this, i - 1, ret (slice part pos (i - 1)) s)
    else if pos <? i - 1 then
      (this, i, ret (slice part pos i) s)
    else (this, pos, s)
  else (this, pos, s).

(** The loop state reached when the iterations [1 .. upto-1] are done. *)
Definition scan (part : string) (upto : nat) (s : St) : ascii * nat * St :=
  fold_left (scan_step part) (seq 1 (upto - 1)) (char_at part 0, 0, s).

(** Body of [for part in cls.NAME_BREAKUP_RE.split(token)]. *)
Definition split_part (s : St) (part : string) : St :=
  if truthy part then
    let '(_, pos, s1) := scan part (String.length part) s in
    let last := slice_from part pos in
    if truthy last then ret last s1 else s1
  else s.

Definition split_walk (token : string) (s : St) : St :=
  let token := take MAX_TOKEN_LENGTH (strip token) in
  fold_left split_part (re_split token) s.
End Walk.

(** The inner generator [ret(name)]: the state is the cell [prev_p[0]]
    and the values yielded so far. *)
Definition ret (name : string) (st : string * list string) : string * list string :=
  let '(prev_p, out) := st in
  let r := lower name in
  if 3 <=? String.length name then
    if truthy prev_p then (EmptyString, out ++ [r; (prev_p ++ r)%string])
    else (prev_p, out ++ [r])
  else (r, out).

(** [_split(token)]: the sequence of yielded strings. *)
Definition _split (token : string) : list string :=
  snd (split_walk ret token (EmptyString, [])).

(** Recording the argument of a call of [ret] instead of running it. *)
Definition collect (name : string) (tr : list string) : list string := tr ++ [name].

(** The arguments of the successive calls of [ret] made by [_split]: the
    raw sub-words. *)
Definition sub_words (token : string) : list string := split_walk collect token [].

(** The contents of [prev_p[0]] after each call of [ret] made by
    [_split], paired with the argument of the call. *)
Definition held_trace (token : string) : list (string * string) :=
  snd (split_walk
         (fun name '(st, hs) => let st' := ret name st in (st', hs ++ [(name, fst st')]))
         token ((EmptyString, []), [])).

Section Stemming.
(** [self._stemmer.stemWord], the external Snowball stemmer. *)
Variable stemWord : string -> string.

(** [_stem(word)]: the value returned, and the arguments with which the
    external stemmer was called. *)
Definition _stem (word : string) : string * list string :=
  if String.length word <=? STEM_THRESHOLD then (word, [])
  else (stemWord word, [word]).

(** [_process_token(token)]: the values yielded, and the arguments with
    which the external stemmer was called meanwhile. *)
Definition _process_token (token : string) : list string * list string :=
  fold_left
    (fun '(out, calls) word =>
       let '(w, c) := _stem word in (out ++ [w], calls ++ c))
    (_split token) ([], []).
End Stemming.

End Repo2Base.

(** ** The design document's account of the short-fragment rule *)

Module Spec.
Import Py.

(** The one-slot buffer of section 4.1, step 5: a sub-word of length at
    least 3 is yielded in lowercase, followed by the held fragment
    prefixed onto it when one is held; a shorter sub-word is held; what is
    still held at the end yields nothing. *)
Fixpoint carry_forward (held : option string) (words : list string) : list string :=
  match words with
  | [] => []
  | w :: rest =>
      if 3 <=? String.length w then
        match held with
        | Some h => lower w :: (h ++ lower w)%string :: carry_forward None rest
        | None => lower w :: carry_forward None rest
        end
      else carry_forward (Some (lower w)) rest
  end.

(** Section 4.1, step 5, last sentence: a fragment that is held is not
    replaced by a new short fragment before a sub-word of length at least
    3 has consumed it.  [trace] lists the calls of [ret] in order, each
    with the contents of the cell when the call is over. *)
Definition held_until_consumed (trace : list (string * string)) : Prop :=
  forall before name1 held name2 held' after,
    trace = before ++ (name1, held) :: (name2, held') :: after ->
    held <> EmptyString -> String.length name2 < 3 -> held' = held.

End Spec.

(** ** The parse pipeline: [uast_generator] inside [convert_repository] *)

Module Pipeline.
Import Py Repo2Base.

(** A task is the pair [(filename, language)] put on [queue_in]. *)
Definition task : Type := string * string.

Definition lang_list : list string := ["Python"; "Java"].

(** [lang in lang_list] *)
Definition supported (lang : string) : bool := existsb (String.eqb lang) lang_list.

Fixpoint ends_with_sep (s : string) : bool :=
  match s with
  | EmptyString => false
  | String c EmptyString => Ascii.eqb c "/"
  | String _ s' => ends_with_sep s'
  end.

(** [os.path.join(a, b)] (posixpath) *)
Definition path_join (a b : string) : string :=
  if prefix "/" b then b
  else if negb (truthy a) || ends_with_sep a then (a ++ b)%string
  else (a ++ "/" ++ b)%string.

(** The dispatch loops over [classified.items()]: the state is the counter
    [tasks] and the tasks put on [queue_in] so far.  The mapping is the
    list of its items in iteration order. *)
Definition dispatch_files (target_dir lang : string) (st : nat * list task)
    (files : list string) : nat * list task :=
  fold_left
    (fun '(tasks, puts) f => (tasks + 1, puts ++ [(path_join target_dir f, lang)]))
    files st.

Definition dispatch (target_dir : string) (classified : list (string * list string))
  : nat * list task :=
  fold_left
    (fun st '(lang, files) =>
       if negb (supported lang) then st
       else dispatch_files target_dir lang st files)
    classified (0, []).

Section Workers.
(** Parsed trees are opaque. *)
Variable UAST : Type.

(** What [parse_uast] may do: return a tree, return [None], or raise. *)
Inductive reply : Type :=
| Tree (u : UAST)
| NoTree
| ParseRaises.

(** The file system and the Babelfish clients, as seen by the workers:
    [None] stands for a raised [OSError]. *)
Variable islink : string -> bool.
Variable readlink : string -> option string.
Variable stat_size : string -> option Z.
Variable parse_uast : nat -> string -> string -> reply.

(** What a worker does that others can observe. *)
Inductive event : Type :=
| CallParse (thread_index : nat) (filename language : string)
| LogTooBig (filename : string) (size : Z)
| LogTimedOut (filename : string)
| LogError (t : task)
| Put (outcome : option UAST).

(** Computations that log events and may raise: the value is [None]
    when an exception escapes. *)
Definition M (A : Type) : Type := list event * option A.

Definition pure {A} (a : A) : M A := ([], Some a).
Definition raise {A} : M A := ([], None).
Definition emit (e : event) : M unit := ([e], Some tt).

Definition bind {A B} (m : M A) (k : A -> M B) : M B :=
  match m with
  | (tr, Some a) => let '(tr', r) := k a in (tr ++ tr', r)
  | (tr, None) => (tr, None)
  end.

(** [try: body except: handler] *)
Definition try_except {A} (body handler : M A) : M A :=
  match body with
  | (tr, None) => let '(tr', r) := handler in (tr ++ tr', r)
  | _ => body
  end.

Definition lift {A} (o : option A) : M A :=
  match o with
  | Some a => pure a
  | None => raise
  end.

Definition call_parse (thread_index : nat) (filename language : string)
  : M (option UAST) :=
  bind (emit (CallParse thread_index filename language)) (fun _ =>
  match parse_uast thread_index filename language with
  | Tree u => pure (Some u)
  | NoTree => pure None
  | ParseRaises => raise
  end).

(** One iteration of [thread_loop] on a task that is not the sentinel. *)
Definition handle_task (thread_index : nat) (t : task) : M unit :=
  try_except
    (let '(filename, language) := t in
     bind (if islink filename then lift (readlink filename) else pure filename)
       (fun filename =>
     bind (lift (stat_size filename)) (fun size =>
     if (size >? MAX_FILE_SIZE)%Z then
       bind (emit (LogTooBig filename size)) (fun _ => emit (Put None))
     else
       bind (call_parse thread_index filename language) (fun uast =>
       bind (match uast with
             | None => emit (LogTimedOut filename)
             | Some _ => pure tt
             end) (fun _ =>
       emit (Put uast))))))
    (bind (emit (LogError t)) (fun _ => emit (Put None))).

(** The outcomes a trace puts on [queue_out]. *)
Fixpoint puts (tr : list event) : list (option UAST) :=
  match tr with
  | [] => []
  | Put o :: tr' => o :: puts tr'
  | _ :: tr' => puts tr'
  end.

(** The parser calls of a trace. *)
Fixpoint parse_calls (tr : list event) : list (nat * string * string) :=
  match tr with
  | [] => []
  | CallParse i f l :: tr' => (i, f, l) :: parse_calls tr'
  | _ :: tr' => parse_calls tr'
  end.

(** *** The threads *)

(** A worker is waiting in [queue_in.get()], is processing a task, or
    has left its loop. *)
Inductive worker : Type :=
| Idle
| Busy (t : task)
| Exited.

(** Where the generator's own thread is. *)
Inductive phase : Type :=
| Dispatching (todo : list task)
| Signalling (sentinels : nat)
| Collecting
| Joining
| Finished.

Record state : Type := {
  queue_in : list (option task);
  queue_out : list (option UAST);
  pool : list worker;
  tasks : nat;
  report_interval : nat;
  yielded : list UAST;
  received : nat;
  progress : list nat;
  at_phase : phase
}.

(** The state when the pool has been started and nothing is queued. *)
Definition start (ncpu : nat) (target_dir : string)
    (classified : list (string * list string)) : state :=
  {| queue_in := []; queue_out := []; pool := repeat Idle ncpu;
     tasks := 0; report_interval := 0; yielded := []; received := 0;
     progress := [];
     at_phase := Dispatching (snd (dispatch target_dir classified)) |}.

(** [if result is not None: yield result] *)
Definition yield_result (ys : list UAST) (result : option UAST) : list UAST :=
  match result with
  | Some u => ys ++ [u]
  | None => ys
  end.

(** [if tasks % report_interval == 0: self._log.info(...)] *)
Definition report (interval tasks : nat) (log : list nat) : list nat :=
  if tasks mod interval =? 0 then log ++ [tasks] else log.

(** One atomic action of one thread. *)
Inductive step : state -> state -> Prop :=
| main_put_task : forall qi qo p n ri ys rc lg t todo,
    step {| queue_in := qi; queue_out := qo; pool := p; tasks := n;
            report_interval := ri; yielded := ys; received := rc;
            progress := lg; at_phase := Dispatching (t :: todo) |}
         {| queue_in := qi ++ [Some t]; queue_out := qo; pool := p;
            tasks := n + 1; report_interval := ri; yielded := ys;
            received := rc; progress := lg; at_phase := Dispatching todo |}
| main_interval : forall qi qo p n ri ys rc lg,
    step {| queue_in := qi; queue_out := qo; pool := p; tasks := n;
            report_interval := ri; yielded := ys; received := rc;
            progress := lg; at_phase := Dispatching [] |}
         {| queue_in := qi; queue_out := qo; pool := p; tasks := n;
            report_interval := Nat.max 1 (n / 100); yielded := ys;
            received := rc; progress := lg;
            at_phase := Signalling (List.length p) |}
| main_put_sentinel : forall qi qo p n ri ys rc lg k,
    step {| queue_in := qi; queue_out := qo; pool := p; tasks := n;
            report_interval := ri; yielded := ys; received := rc;
            progress := lg; at_phase := Signalling (S k) |}
         {| queue_in := qi ++ [None]; queue_out := qo; pool := p; tasks := n;
            report_interval := ri; yielded := ys; received := rc;
            progress := lg; at_phase := Signalling k |}
| main_enter_loop : forall qi qo p n ri ys rc lg,
    step {| queue_in := qi; queue_out := qo; pool := p; tasks := n;
            report_interval := ri; yielded := ys; received := rc;
            progress := lg; at_phase := Signalling 0 |}
         {| queue_in := qi; queue_out := qo; pool := p; tasks := n;
            report_interval := ri; yielded := ys; received := rc;
            progress := lg; at_phase := Collecting |}
| main_get_result : forall qi qo p n ri ys rc lg result,
    0 < n ->
    step {| queue_in := qi; queue_out := result :: qo; pool := p; tasks := n;
            report_interval := ri; yielded := ys; received := rc;
            progress := lg; at_phase := Collecting |}
         {| queue_in := qi; queue_out := qo; pool := p; tasks := n - 1;
            report_interval := ri; yielded := yield_result ys result;
            received := rc + 1; progress := report ri (n - 1) lg;
            at_phase := Collecting |}
| main_leave_loop : forall qi qo p ri ys rc lg,
    step {| queue_in := qi; queue_out := qo; pool := p; tasks := 0;
            report_interval := ri; yielded := ys; received := rc;
            progress := lg; at_phase := Collecting |}
         {| queue_in := qi; queue_out := qo; pool := p; tasks := 0;
            report_interval := ri; yielded := ys; received := rc;
            progress := lg; at_phase := Joining |}
| main_joined : forall qi qo p n ri ys rc lg,
    Forall (fun w => w = Exited) p ->
    step {| queue_in := qi; queue_out := qo; pool := p; tasks := n;
            report_interval := ri; yielded := ys; received := rc;
            progress := lg; at_phase := Joining |}
         {| queue_in := qi; queue_out := qo; pool := p; tasks := n;
            report_interval := ri; yielded := ys; received := rc;
            progress := lg; at_phase := Finished |}
| worker_get_task : forall qi qo p1 p2 n ri ys rc lg ph t,
    step {| queue_in := Some t :: qi; queue_out := qo;
            pool := p1 ++ Idle :: p2; tasks := n; report_interval := ri;
            yielded := ys; received := rc; progress := lg; at_phase := ph |}
         {| queue_in := qi; queue_out := qo;
            pool := p1 ++ Busy t :: p2; tasks := n; report_interval := ri;
            yielded := ys; received := rc; progress := lg; at_phase := ph |}
| worker_get_sentinel : forall qi qo p1 p2 n ri ys rc lg ph,
    step {| queue_in := None :: qi; queue_out := qo;
            pool := p1 ++ Idle :: p2; tasks := n; report_interval := ri;
            yielded := ys; received := rc; progress := lg; at_phase := ph |}
         {| queue_in := qi; queue_out := qo;
            pool := p1 ++ Exited :: p2; tasks := n; report_interval := ri;
            yielded := ys; received := rc; progress := lg; at_phase := ph |}
| worker_done : forall qi qo p1 p2 n ri ys rc lg ph t,
    step {| queue_in := qi; queue_out := qo;
            pool := p1 ++ Busy t :: p2; tasks := n; report_interval := ri;
            yielded := ys; received := rc; progress := lg; at_phase := ph |}
         {| queue_in := qi;
            queue_out := qo ++ puts (fst (handle_task (List.length p1) t));
            pool := p1 ++ Idle :: p2; tasks := n; report_interval := ri;
            yielded := ys; received := rc; progress := lg; at_phase := ph |}.

(** Executions: finitely many steps. *)
Inductive steps : state -> state -> Prop :=
| steps_refl : forall s, steps s s
| steps_more : forall s1 s2 s3, steps s1 s2 -> step s2 s3 -> steps s1 s3.

(** A bound on the number of steps that remain. *)
Definition busy (w : worker) : nat :=
  match w with
  | Busy _ => 1
  | _ => 0
  end.

Definition main_weight (npool : nat) (ph : phase) : nat :=
  match ph with
  | Dispatching todo => 4 * (List.length todo + npool) + 4
  | Signalling k => 4 * k + 3
  | Collecting => 2
  | Joining => 1
  | Finished => 0
  end.

Definition weight (s : state) : nat :=
  main_weight (List.length (pool s)) (at_phase s)
  + 3 * List.length (queue_in s)
  + 2 * list_sum (map busy (pool s))
  + List.length (queue_out s).

End Workers.

Arguments Tree {UAST} u.
Arguments NoTree {UAST}.
Arguments ParseRaises {UAST}.
Arguments CallParse {UAST} thread_index filename language.
Arguments LogTooBig {UAST} filename size.
Arguments LogTimedOut {UAST} filename.
Arguments LogError {UAST} t.
Arguments Put {UAST} outcome.
Arguments puts {UAST} tr.
Arguments parse_calls {UAST} tr.
Arguments queue_in {UAST} s.
Arguments queue_out {UAST} s.
Arguments pool {UAST} s.
Arguments tasks {UAST} s.
Arguments report_interval {UAST} s.
Arguments yielded {UAST} s.
Arguments received {UAST} s.
Arguments progress {UAST} s.
Arguments at_phase {UAST} s.
Arguments weight {UAST} s.

End Pipeline.

(** The design document's account of dispatch: the classified files whose
    language is one of the two supported ones, as [(language, file)] pairs
    in the order of the mapping. *)
Module PipelineSpec.

Definition allow_list : list string := ["Python"; "Java"].

Definition allow_listed_files (classified : list (string * list string))
  : list (string * string) :=
  flat_map
    (fun '(lang, files) =>
       if in_dec string_dec lang allow_list then map (pair lang) files else [])
    classified.

End PipelineSpec.

(** ** Repository acquisition: the outer part of [convert_repository] *)

Module Repository.

(** What [subprocess.check_call] may do during the clone: return; raise
    an [Exception] ([CalledProcessError], [OSError]); or be left by a
    [BaseException] that is not an [Exception] ([KeyboardInterrupt],
    [SystemExit]), which [except Exception] does not catch. *)
Inductive clone_result : Type :=
| Cloned
| CloneFailed
| CloneInterrupted.

Section Convert.
(** The classification mapping and the value of [convert_uasts] are
    opaque here. *)
Variables Classified Result : Type.

(** The outside world as one call sees it.  [None] stands for a call
    left by an exception of any kind, [false] for [shutil.rmtree] raising. *)
Variable path_exists : string -> bool.
Variable mkdtemp : option string.
Variable git_clone : string -> string -> clone_result.
Variable classify_files : string -> option Classified.
Variable convert_uasts : string -> Classified -> option Result.
Variable rmtree : string -> bool.

(** The calls made, in order.  [Rmtree d] is the call of
    [shutil.rmtree(d)], whether or not it succeeds. *)
Inductive event : Type :=
| Mkdtemp (dir : string)
| Clone (url dir : string)
| Classify (dir : string)
| Convert (dir : string)
| Rmtree (dir : string).

Inductive outcome : Type :=
| Returned (r : Result)
| Raised.

(** The first [if temp: ... else: ...]: the events, and [target_dir]
    unless an exception left the function. *)
Definition acquire (temp : bool) (url_or_path : string) : list event * option string :=
  if temp then
    match mkdtemp with
    | None => ([], None)
    | Some target_dir =>
        match git_clone url_or_path target_dir with
        | Cloned =>
            ([Mkdtemp target_dir; Clone url_or_path target_dir], Some target_dir)
        | CloneFailed =>
            ([Mkdtemp target_dir; Clone url_or_path target_dir; Rmtree target_dir],
             None)
        | CloneInterrupted =>
            ([Mkdtemp target_dir; Clone url_or_path target_dir], None)
        end
    end
  else ([], Some url_or_path).

(** The body of the second [try]. *)
Definition process (target_dir : string) : list event * outcome :=
  match classify_files target_dir with
  | None => ([Classify target_dir], Raised)
  | Some classified =>
      match convert_uasts target_dir classified with
      | None => ([Classify target_dir; Convert target_dir], Raised)
      | Some r => ([Classify target_dir; Convert target_dir], Returned r)
      end
  end.

(** [finally: if temp: shutil.rmtree(target_dir)]: an exception raised
    by [rmtree] replaces the value or the exception of the body. *)
Definition cleanup (temp : bool) (target_dir : string) (body : list event * outcome)
  : list event * outcome :=
  let '(tr, r) := body in
  if temp then (tr ++ [Rmtree target_dir], if rmtree target_dir then r else Raised)
  else (tr, r).

Definition convert_repository (url_or_path : string) : list event * outcome :=
  let temp := negb (path_exists url_or_path) in
  match acquire temp url_or_path with
  | (tr, None) => (tr, Raised)
  | (tr, Some target_dir) =>
      let '(tr', r) := cleanup temp target_dir (process target_dir) in
      (tr ++ tr', r)
  end.

(** The directories [rmtree] was called on. *)
Definition removed (tr : list event) : list string :=
  flat_map (fun e => match e with Rmtree d => [d] | _ => [] end) tr.

Definition created (tr : list event) : list string :=
  flat_map (fun e => match e with Mkdtemp d => [d] | _ => [] end) tr.

Definition classified_dirs (tr : list event) : list string :=
  flat_map (fun e => match e with Classify d => [d] | _ => [] end) tr.

End Convert.

End Repository.

(** ** The command line entry: [repos2_entry] and
    [ensure_bblfsh_is_running_noexc] *)

Module Entry.
Import Py.

(** [itertools.product(xs, ys)] *)
Definition product {A B : Type} (xs : list A) (ys : list B) : list (A * B) :=
  flat_map (fun x => map (pair x) ys) xs.

(** What a file opened in text mode with the default [newline=None] hands
    out for the characters stored in it: ["\r\n"] and a lone ["\r"]
    become ["\n"].  [after_cr] tells that the previous character was a
    ["\r"]. *)
Fixpoint translate_from (after_cr : bool) (raw : string) : string :=
  match raw with
  | EmptyString => EmptyString
  | String c rest =>
      if Ascii.eqb c "013" then String "010" (translate_from true rest)
      else if Ascii.eqb c "010" then
        if after_cr then translate_from false rest
        else String "010" (translate_from false rest)
      else String c (translate_from false rest)
  end.

Definition universal_newlines (raw : string) : string := translate_from false raw.

(** The lines of a translated text as iterating over the file object
    gives them: each line keeps its ["\n"], and a last line without one is
    given too.  [cur] is the line being read. *)
Fixpoint lines_from (cur text : string) : list string :=
  match text with
  | EmptyString => if truthy cur then [cur] else []
  | String c rest =>
      if Ascii.eqb c "010"
      then (cur ++ String c EmptyString)%string :: lines_from EmptyString rest
      else lines_from (cur ++ String c EmptyString)%string rest
  end.

(** [for l in f], on the characters stored in the file. *)
Definition readlines (raw : string) : list string :=
  lines_from EmptyString (universal_newlines raw).

(** [multiprocessing.Pool(processes=p)] raises [ValueError] unless [p] is
    [None] or at least 1. *)
Definition valid_processes (p : option Z) : bool :=
  match p with
  | None => true
  | Some k => (1 <=? k)%Z
  end.

Section Call.
(** [args] is an [argparse.Namespace]; [repos2_entry] reads three of its
    attributes and hands the whole object to the payload. *)
Variable Args : Type.
Variable input : Args -> list string.
Variable output : Args -> string.
Variable processes : Args -> option Z.

(** The outside world: [false] and [None] stand for a raised exception.
    [read_text] gives the characters stored in a file; [pool_starts] tells
    whether the worker processes of a pool of a valid size can be
    started; [starmap] stands for [pool.starmap(payload_func, ...)]. *)
Variable launch_ok : bool.
Variable debug_enabled : bool.
Variable isfile : string -> bool.
Variable read_text : string -> option string.
Variable makedirs : string -> bool.
Variable pool_starts : option Z -> bool.
Variable starmap : list (string * Args) -> bool.

Inductive event : Type :=
| Launch
| LogException (message : string)
| LogWarning (message : string)
| Open (path : string)
| Makedirs (path : string)
| MakePool (processes : option Z)
| Starmap (calls : list (string * Args))
| Terminate.

(** [ensure_bblfsh_is_running_noexc()]: it always returns. *)
Definition ensure_bblfsh_is_running_noexc : list event :=
  if launch_ok then [Launch]
  else
    let message := "Failed to ensure that the Babelfish server is running." in
    if debug_enabled then [Launch; LogException message]
    else [Launch; LogWarning message].

(** One iteration of [for i in args.input]: the state is the events so
    far and the list [inputs], or [None] once an exception has left the
    loop. *)
Definition read_input (st : list event * option (list string)) (i : string)
  : list event * option (list string) :=
  match st with
  | (tr, None) => (tr, None)
  | (tr, Some inputs) =>
      if isfile i then
        match read_text i with
        | Some raw => (tr ++ [Open i], Some (inputs ++ map strip (readlines raw)))
        | None => (tr ++ [Open i], None)
        end
      else (tr, Some (inputs ++ [i]))
  end.

(** [with multiprocessing.Pool(processes=args.processes) as pool:
    pool.starmap(payload_func, itertools.product(inputs, [args]))]: the
    pool is terminated when the block is left, also by an exception. *)
Definition run_pool (args : Args) (inputs : list string) : list event * bool :=
  let p := processes args in
  if valid_processes p && pool_starts p then
    let calls := product inputs [args] in
    ([MakePool p; Starmap calls; Terminate], starmap calls)
  else ([MakePool p], false).

(** [repos2_entry(args, payload_func)]: the events, and whether the call
    returns. *)
Definition repos2_entry (args : Args) : list event * bool :=
  let tr0 := ensure_bblfsh_is_running_noexc in
  match fold_left read_input (input args) ([], Some []) with
  | (tr1, None) => (tr0 ++ tr1, false)
  | (tr1, Some inputs) =>
      if makedirs (output args) then
        let '(tr2, returned) := run_pool args inputs in
        (tr0 ++ tr1 ++ Makedirs (output args) :: tr2, returned)
      else (tr0 ++ tr1 ++ [Makedirs (output args)], false)
  end.

End Call.

Arguments Launch {Args}.
Arguments LogException {Args} message.
Arguments LogWarning {Args} message.
Arguments Open {Args} path.
Arguments Makedirs {Args} path.
Arguments MakePool {Args} processes.
Arguments Starmap {Args} calls.
Arguments Terminate {Args}.

End Entry.

(** ** Construction: [Repo2Base.__init__] *)

Module Init.
Import Py.

(** The attributes set by [__init__]; a Babelfish client is represented by
    the endpoint it was built with. *)
Record instance : Type := {
  _stem_threshold : nat;
  _tempdir : option string;
  _linguist : string;
  _bblfsh : list string;
  _timeout : Z
}.

(** [x or default] for an optional string: [None] and the empty string
    are false. *)
Definition or_else (x : option string) (default : string) : string :=
  match x with
  | Some s => if truthy s then s else default
  | None => default
  end.

Section Construction.
(** [multiprocessing.cpu_count()] and [shutil.which("enry", path=os.getcwd())] *)
Variable cpu_count : nat.
Variable which_enry : option string.

Definition __init__ (tempdir linguist bblfsh_endpoint : option string) (timeout : Z)
  : instance :=
  let linguist :=
    match linguist with
    | None => which_enry
    | Some _ => linguist
    end in
  let linguist :=
    match linguist with
    | None => "enry"
    | Some l => l
    end in
  {| _stem_threshold := Repo2Base.STEM_THRESHOLD;
     _tempdir := tempdir;
     _linguist := linguist;
     _bblfsh := map (fun _ => or_else bblfsh_endpoint "0.0.0.0:9432") (seq 0 cpu_count);
     _timeout := timeout |}.

End Construction.

End Init.

(** ** Vocabulary for statements about strings *)

Module Text.
Import Py.

(** ["".join(l)] *)
Definition joined (l : list string) : string :=
  fold_right String.append EmptyString l.

(** The characters of [s] that belong to the class [a-zA-Z], in order. *)
Fixpoint letters (s : string) : string :=
  match s with
  | EmptyString => EmptyString
  | String c s' => if isalpha c then String c (letters s') else letters s'
  end.

(** Every character of [s] satisfies [p]. *)
Fixpoint all_of (p : ascii -> bool) (s : string) : bool :=
  match s with
  | EmptyString => true
  | String c s' => p c && all_of p s'
  end.

(** One uppercase letter followed by lowercase letters only. *)
Definition capitalized (s : string) : bool :=
  match s with
  | EmptyString => false
  | String c s' => isupper c && all_of islower s'
  end.

End Text.

(** * Properties *)

Import Py Repo2Base.

(** ** Strings *)

Lemma substring_nonempty : forall s n m,
  n < String.length s -> 0 < m -> substring n m s <> EmptyString.
Proof.
  induction s as [|c s IH]; intros n m Hn Hm; simpl in Hn; [lia|].
  destruct n as [|n]; simpl.
  - destruct m; [lia | discriminate].
  - apply IH; lia.
Qed.

Lemma truthy_true : forall s, truthy s = true <-> s <> EmptyString.
Proof.
  intros s. unfold truthy. destruct s; simpl; split; intros H; congruence.
Qed.

Lemma truthy_false : forall s, truthy s = false <-> s = EmptyString.
Proof.
  intros s. unfold truthy. destruct s; simpl; split; intros H; congruence.
Qed.

Lemma lower_length : forall s, String.length (lower s) = String.length s.
Proof. induction s; simpl; congruence. Qed.

Lemma truthy_lower : forall s, truthy (lower s) = truthy s.
Proof. destruct s; reflexivity. Qed.

Lemma only_delimiters_lstrip : forall s,
  only_delimiters s = true -> only_delimiters (lstrip s) = true.
Proof.
  induction s as [|c s IH]; simpl; intros H; [reflexivity|].
  apply andb_true_iff in H as [Hc Hs].
  destruct (isspace c); [auto | simpl; now rewrite Hc, Hs].
Qed.

Lemma only_delimiters_rstrip : forall s,
  only_delimiters s = true -> only_delimiters (rstrip s) = true.
Proof.
  induction s as [|c s IH]; simpl; intros H; [reflexivity|].
  apply andb_true_iff in H as [Hc Hs]. specialize (IH Hs).
  destruct (rstrip s) as [|d r].
  - destruct (isspace c); simpl; [reflexivity | now rewrite Hc].
  - change (only_delimiters (String c (String d r)))
      with (negb (isalpha c) && only_delimiters (String d r)).
    now rewrite Hc, IH.
Qed.

Lemma only_delimiters_substring : forall s n m,
  only_delimiters s = true -> only_delimiters (substring n m s) = true.
Proof.
  induction s as [|c s IH]; intros n m H.
  - destruct n, m; reflexivity.
  - simpl in H. apply andb_true_iff in H as [Hc Hs].
    destruct n as [|n]; simpl.
    + destruct m as [|m]; simpl; [reflexivity|]. rewrite Hc. now apply IH.
    + now apply IH.
Qed.

Lemma re_split_only_delimiters : forall s in_run,
  only_delimiters s = true ->
  Forall (fun part => part = EmptyString) (re_split_from in_run EmptyString s).
Proof.
  induction s as [|c s IH]; intros in_run H; simpl.
  - constructor; [reflexivity | constructor].
  - simpl in H. apply andb_true_iff in H as [Hc Hs].
    apply negb_true_iff in Hc. rewrite Hc.
    destruct in_run; [now apply IH | constructor; [reflexivity | now apply IH]].
Qed.

(** ** The traversal does not depend on what [ret] does *)

Section Replay.
Context {St : Type}.
Variable h : string -> St -> St.

(** Running the handler on recorded sub-words. *)
Definition replay (tr : list string) (s : St) : St :=
  fold_left (fun s w => h w s) tr s.

Lemma replay_collect : forall w tr s, replay (collect w tr) s = h w (replay tr s).
Proof. intros. unfold replay, collect. now rewrite fold_left_app. Qed.

Lemma scan_step_replay : forall part s0 prev pos tr i,
  scan_step h part (prev, pos, replay tr s0) i =
  let '(p, q, tr') := scan_step collect part (prev, pos, tr) i in
  (p, q, replay tr' s0).
Proof.
  intros. unfold scan_step.
  repeat match goal with
         | |- context [if ?b then _ else _] => destruct b
         end; now rewrite ?replay_collect.
Qed.

Lemma scan_fold_replay : forall part s0 l prev pos tr,
  fold_left (scan_step h part) l (prev, pos, replay tr s0) =
  let '(p, q, tr') := fold_left (scan_step collect part) l (prev, pos, tr) in
  (p, q, replay tr' s0).
Proof.
  intros part s0. induction l as [|i l IH]; intros; cbn [fold_left].
  { reflexivity. }
  rewrite scan_step_replay.
  destruct (scan_step collect part (prev, pos, tr) i) as [[p q] tr'].
  apply IH.
Qed.

Lemma split_part_replay : forall part s0 tr,
  split_part h (replay tr s0) part = replay (split_part collect tr part) s0.
Proof.
  intros. unfold split_part, scan.
  destruct (truthy part); [|reflexivity].
  rewrite scan_fold_replay.
  destruct (fold_left (scan_step collect part) _ _) as [[p q] tr'].
  destruct (truthy (slice_from part q)); now rewrite ?replay_collect.
Qed.

Lemma split_walk_replay : forall token s0,
  split_walk h token s0 = replay (sub_words token) s0.
Proof.
  intros. unfold sub_words, split_walk.
  change s0 with (replay [] s0) at 1.
  generalize (@nil string) as tr.
  induction (re_split (take MAX_TOKEN_LENGTH (strip token))) as [|part l IH];
    intros tr; cbn [fold_left]; [reflexivity|].
  rewrite split_part_replay. apply IH.
Qed.
End Replay.

(** ** Invariants of the inner loop *)

Lemma scan_first : forall {St} (h : string -> St -> St) part s,
  scan h part 1 s = (char_at part 0, 0, s).
Proof. reflexivity. Qed.

Lemma scan_next : forall {St} (h : string -> St -> St) part i s,
  1 <= i -> scan h part (S i) s = scan_step h part (scan h part i s) i.
Proof.
  intros St h part i s Hi. unfold scan.
  assert (E : S i - 1 = S (i - 1)) by lia.
  rewrite E, seq_S, fold_left_app. cbn [fold_left].
  assert (E' : 1 + (i - 1) = i) by lia.
  now rewrite E'.
Qed.

Definition nonempty (w : string) : Prop := w <> EmptyString.

Lemma slice_nonempty : forall part lo hi,
  lo < hi -> lo < String.length part -> nonempty (slice part lo hi).
Proof. intros. unfold slice. apply substring_nonempty; lia. Qed.

Lemma scan_step_invariant : forall part i prev pos tr,
  1 <= i < String.length part -> pos < i -> Forall nonempty tr ->
  exists pos' tr',
    scan_step collect part (prev, pos, tr) i = (char_at part i, pos', tr')
    /\ pos' < S i /\ Forall nonempty tr'.
Proof.
  intros part i prev pos tr Hi Hpos Htr. unfold scan_step, collect.
  assert (Hsnoc : forall w, nonempty w -> Forall nonempty (tr ++ [w])).
  { intros w Hw. apply Forall_app. split; [assumption | now constructor]. }
  destruct (islower prev && isupper (char_at part i)).
  { eexists _, _. split; [reflexivity|]. split; [lia|].
    apply Hsnoc, slice_nonempty; lia. }
  destruct (isupper prev && islower (char_at part i)).
  2:{ eexists _, _. split; [reflexivity|]. split; [lia | assumption]. }
  destruct ((0 <? i - 1 - pos) && (i - 1 - pos <=? 3)) eqn:Hrun.
  { apply andb_true_iff in Hrun as [H0 _]. apply Nat.ltb_lt in H0.
    eexists _, _. split; [reflexivity|]. split; [lia|].
    apply Hsnoc, slice_nonempty; lia. }
  destruct (pos <? i - 1).
  - eexists _, _. split; [reflexivity|]. split; [lia|].
    apply Hsnoc, slice_nonempty; lia.
  - eexists _, _. split; [reflexivity|]. split; [lia | assumption].
Qed.

Lemma scan_invariant : forall part k tr0,
  1 <= k <= String.length part -> Forall nonempty tr0 ->
  exists pos tr,
    scan collect part k tr0 = (char_at part (k - 1), pos, tr)
    /\ pos < k /\ Forall nonempty tr.
Proof.
  intros part k tr0 [Hk1 Hk2] H0.
  induction k as [|k IH]; [lia|].
  destruct (Nat.eq_dec k 0) as [->|Hk].
  - exists 0, tr0. rewrite scan_first. repeat split; [lia | assumption].
  - destruct IH as (pos & tr & Hs & Hpos & Htr); [lia | lia |].
    rewrite scan_next by lia. rewrite Hs.
    destruct (scan_step_invariant part k (char_at part (k - 1)) pos tr)
      as (pos' & tr' & Hstep & Hpos' & Htr'); [lia | lia | assumption |].
    exists pos', tr'. rewrite Hstep.
    replace (S k - 1) with k by lia. auto.
Qed.

Lemma split_part_nonempty : forall part tr,
  Forall nonempty tr -> Forall nonempty (split_part collect tr part).
Proof.
  intros part tr Htr. unfold split_part.
  destruct (truthy part) eqn:Hp; [|assumption].
  apply truthy_true in Hp.
  assert (Hlen : 1 <= String.length part) by (destruct part; simpl; [congruence | lia]).
  destruct (scan_invariant part (String.length part) tr) as (pos & tr' & Hs & _ & Htr');
    [lia | assumption |].
  rewrite Hs.
  destruct (truthy (slice_from part pos)) eqn:Hl; [|assumption].
  apply Forall_app. split; [assumption|]. constructor; [|constructor].
  now apply truthy_true.
Qed.

Lemma sub_words_nonempty : forall token, Forall nonempty (sub_words token).
Proof.
  intros token. unfold sub_words, split_walk.
  assert (H0 : Forall nonempty (@nil string)) by constructor.
  revert H0. generalize (@nil string) as tr.
  induction (re_split (take MAX_TOKEN_LENGTH (strip token))) as [|part l IH];
    intros tr Htr; cbn [fold_left]; [assumption|].
  apply IH. now apply split_part_nonempty.
Qed.

(** ** The cell [prev_p] *)

Definition held_of (prev_p : string) : option string :=
  if truthy prev_p then Some prev_p else None.

Lemma ret_long : forall name prev_p out,
  3 <= String.length name ->
  ret name (prev_p, out) =
  (EmptyString,
   out ++ lower name ::
     match held_of prev_p with
     | Some h => [(h ++ lower name)%string]
     | None => []
     end).
Proof.
  intros name prev_p out Hlen. unfold ret, held_of.
  apply Nat.leb_le in Hlen. rewrite Hlen.
  destruct (truthy prev_p) eqn:E; [reflexivity|].
  apply truthy_false in E. now subst.
Qed.

Lemma ret_short : forall name prev_p out,
  String.length name < 3 -> ret name (prev_p, out) = (lower name, out).
Proof.
  intros name prev_p out Hlen. unfold ret.
  apply Nat.leb_gt in Hlen. now rewrite Hlen.
Qed.

Lemma replay_ret : forall words prev_p out,
  Forall nonempty words ->
  snd (replay ret words (prev_p, out)) = out ++ Spec.carry_forward (held_of prev_p) words.
Proof.
  induction words as [|w words IH]; intros prev_p out Hne.
  - simpl. now rewrite app_nil_r.
  - inversion Hne as [|? ? Hw Hrest]; subst.
    change (replay ret (w :: words) (prev_p, out))
      with (replay ret words (ret w (prev_p, out))).
    cbn [Spec.carry_forward].
    destruct (3 <=? String.length w) eqn:Hlen.
    + apply Nat.leb_le in Hlen. rewrite ret_long by assumption.
      rewrite IH by assumption.
      change (held_of EmptyString) with (@None string).
      destruct (held_of prev_p); now rewrite <- app_assoc.
    + apply Nat.leb_gt in Hlen. rewrite ret_short by assumption.
      rewrite IH by assumption. unfold held_of at 1.
      rewrite truthy_lower.
      assert (truthy w = true) as -> by now apply truthy_true.
      reflexivity.
Qed.

Lemma ret_cell : forall name st,
  fst (ret name st) = if 3 <=? String.length name then EmptyString else lower name.
Proof.
  intros name [prev_p out]. unfold ret.
  destruct (3 <=? String.length name); [|reflexivity].
  destruct (truthy prev_p) eqn:E; [reflexivity|].
  now apply truthy_false in E.
Qed.

Lemma islower_not_isupper : forall c, islower c = true -> isupper c = false.
Proof.
  intros c. unfold islower, isupper, between.
  change (code "a") with 97. change (code "z") with 122.
  change (code "A") with 65. change (code "Z") with 90.
  intros H. apply andb_true_iff in H as [H1 H2].
  apply Nat.leb_le in H1. apply andb_false_iff. right.
  apply Nat.leb_gt. lia.
Qed.

Lemma isupper_not_islower : forall c, isupper c = true -> islower c = false.
Proof.
  intros c H. destruct (islower c) eqn:E; [|reflexivity].
  apply islower_not_isupper in E. congruence.
Qed.

(** ** The tokenizer's claims *)

(** C1. For every identifier, [_split] yields what the one-slot rule of the
    design document yields on the raw sub-words it emits: a sub-word of
    length at least 3 is yielded in lowercase; a shorter one is held, and
    the next sub-word of length at least 3 is yielded once alone and once
    prefixed by what is held; what is held at the end yields nothing.  The
    fragments "a", "Setting" give "setting" and "asetting". *)
Theorem split_carries_short_fragments_forward :
  (forall token, _split token = Spec.carry_forward None (sub_words token))
  /\ sub_words "aSetting" = ["a"; "Setting"]
  /\ _split "aSetting" = ["setting"; "asetting"]
  /\ Spec.carry_forward None ["Setting"; "a"] = ["setting"].
Proof.
  split; [|repeat split; vm_compute; reflexivity].
  intros token. unfold _split.
  rewrite split_walk_replay, replay_ret by apply sub_words_nonempty.
  reflexivity.
Qed.



(** C3, as stated: splitting "httpServerMaxSizeKB" and stemming gives the
    five tokens "http", "server", "max", "size", "kb".  No stemmer makes
    this true: the trailing sub-word "KB" has length 2, is held, and is
    never yielded. *)
Lemma process_token_http_has_no_kb :
  ~ (exists stemWord,
       fst (_process_token stemWord "httpServerMaxSizeKB")
       = ["http"; "server"; "max"; "size"; "kb"]).
Proof.
  intros [stemWord H]. vm_compute in H. discriminate H.
Qed.

(** C3, amended.  Whatever the stemmer, splitting "httpServerMaxSizeKB" and
    stemming yields exactly "http", "server", "max", "size", in that order,
    without calling the stemmer; the raw sub-words are "http", "Server",
    "Max", "Size", "KB", and the last one is left in the cell. *)
Theorem process_token_http_server : forall stemWord,
  _process_token stemWord "httpServerMaxSizeKB" = (["http"; "server"; "max"; "size"], [])
  /\ sub_words "httpServerMaxSizeKB" = ["http"; "Server"; "Max"; "Size"; "KB"]
  /\ fst (split_walk ret "httpServerMaxSizeKB" (EmptyString, [])) = "kb".
Proof.
  intros stemWord. repeat split; vm_compute; reflexivity.
Qed.

(** C7. [_stem] returns a word of length at most 6 unchanged and does not
    call the stemmer for it; every word the stemmer is called with, by
    [_stem] or during [_process_token], is longer than 6. *)
Theorem stem_identity_up_to_threshold : forall stemWord word,
  (String.length word <= 6 -> _stem stemWord word = (word, []))
  /\ (forall w, In w (snd (_stem stemWord word)) -> 6 < String.length w)
  /\ (forall w, In w (snd (_process_token stemWord word)) -> 6 < String.length w).
Proof.
  intros stemWord word.
  assert (Hcalls : forall x w, In w (snd (_stem stemWord x)) -> 6 < String.length w).
  { intros x w. unfold _stem, STEM_THRESHOLD.
    destruct (String.length x <=? 6) eqn:E; simpl; [tauto|].
    intros [<-|[]]. now apply Nat.leb_gt in E. }
  split; [|split].
  - intros Hlen. unfold _stem, STEM_THRESHOLD.
    apply Nat.leb_le in Hlen. now rewrite Hlen.
  - apply Hcalls.
  - unfold _process_token.
    assert (Hgen : forall words out calls,
               Forall (fun w => 6 < String.length w) calls ->
               Forall (fun w => 6 < String.length w)
                 (snd (fold_left
                         (fun '(out, calls) word =>
                            let '(w, c) := _stem stemWord word in (out ++ [w], calls ++ c))
                         words (out, calls)))).
    { induction words as [|x words IH]; intros out calls Hc; simpl; [assumption|].
      destruct (_stem stemWord x) as [w c] eqn:E.
      apply IH. apply Forall_app. split; [assumption|].
      apply Forall_forall. intros y Hy. apply (Hcalls x). now rewrite E. }
    intros w Hw. specialize (Hgen (_split word) [] [] (Forall_nil _)).
    rewrite Forall_forall in Hgen. now apply Hgen.
Qed.

Lemma stem_identity_up_to_threshold_witness :
  _stem (fun _ => "?") "server" = ("server", []).
Proof.
  apply (proj1 (stem_identity_up_to_threshold (fun _ => "?") "server")).
  simpl. lia.
Defined.

(** C8, as stated: a held fragment is never replaced while it is still
    unconsumed.  On "a_b_setting" the held "a" is replaced by "b" before
    any sub-word of length 3 or more arrives. *)
Lemma held_fragment_replaced_unconsumed :
  ~ Spec.held_until_consumed (held_trace "a_b_setting").
Proof.
  intros H.
  specialize (H [] "a" "a" "b" "b" [("setting", EmptyString)] eq_refl).
  assert (E : "b" = "a"); [|discriminate E].
  apply H; [discriminate | simpl; lia].
Qed.

Lemma held_trace_replay : forall words st hs,
  snd (replay (fun name '(st, hs) => let st' := ret name st in (st', hs ++ [(name, fst st')]))
         words (st, hs))
  = hs ++ map (fun w => (w, if 3 <=? String.length w then EmptyString else lower w)) words.
Proof.
  induction words as [|w words IH]; intros st hs.
  - simpl. now rewrite app_nil_r.
  - unfold replay in *. cbn [fold_left map].
    rewrite IH, ret_cell, <- app_assoc. reflexivity.
Qed.

(** C8, amended.  The cell holds one string.  After each call of [ret] it
    holds the lowercased sub-word of that call when the sub-word is shorter
    than 3, whatever it held before, and it is empty when the sub-word has
    length 3 or more.  So a short sub-word always replaces what is held. *)
Theorem held_fragment_is_latest_short : forall token,
  held_trace token
  = map (fun w => (w, if 3 <=? String.length w then EmptyString else lower w))
      (sub_words token).
Proof.
  intros token. unfold held_trace.
  rewrite split_walk_replay, held_trace_replay. reflexivity.
Qed.

(** C9. An identifier without any letter of [a-zA-Z] makes [_split] yield
    nothing. *)
Theorem split_only_delimiters : forall token,
  only_delimiters token = true -> _split token = [].
Proof.
  intros token H. unfold _split, split_walk.
  assert (Hparts : Forall (fun part => part = EmptyString)
                     (re_split (take MAX_TOKEN_LENGTH (strip token)))).
  { apply re_split_only_delimiters. unfold take, strip.
    now apply only_delimiters_substring, only_delimiters_rstrip, only_delimiters_lstrip. }
  induction Hparts as [|part parts -> _ IH]; [reflexivity|].
  cbn [fold_left]. exact IH.
Qed.

Lemma split_only_delimiters_witness : _split " __42$.-_ 7 " = [].
Proof. apply split_only_delimiters. reflexivity. Defined.

(** ** Dispatch *)

Import Pipeline.

Lemma supported_allow_list : forall lang,
  supported lang = true <-> In lang PipelineSpec.allow_list.
Proof.
  intros lang. unfold supported, lang_list, PipelineSpec.allow_list.
  rewrite existsb_exists. split.
  - intros (x & Hx & E). apply String.eqb_eq in E. now subst.
  - intros H. exists lang. split; [assumption | apply String.eqb_refl].
Qed.

(** The task made from a classified file. *)
Definition task_of (target_dir : string) (lf : string * string) : task :=
  (path_join target_dir (snd lf), fst lf).

Lemma dispatch_files_closed : forall target_dir lang files n puts,
  dispatch_files target_dir lang (n, puts) files
  = (n + List.length files, puts ++ map (task_of target_dir) (map (pair lang) files)).
Proof.
  intros target_dir lang. unfold dispatch_files.
  induction files as [|f files IH]; intros n puts; cbn [fold_left map List.length].
  - now rewrite Nat.add_0_r, app_nil_r.
  - rewrite IH, <- app_assoc.
    assert (E : n + 1 + List.length files = n + S (List.length files)) by lia.
    now rewrite E.
Qed.

Lemma dispatch_closed : forall target_dir classified,
  dispatch target_dir classified
  = (List.length (PipelineSpec.allow_listed_files classified),
     map (task_of target_dir) (PipelineSpec.allow_listed_files classified)).
Proof.
  intros target_dir classified. unfold dispatch.
  change (0, @nil task) with (0 + 0, @nil task ++ []) at 1.
  assert (Hgen : forall n puts,
    fold_left
      (fun st '(lang, files) =>
         if negb (supported lang) then st else dispatch_files target_dir lang st files)
      classified (n, puts)
    = (n + List.length (PipelineSpec.allow_listed_files classified),
       puts ++ map (task_of target_dir) (PipelineSpec.allow_listed_files classified))).
  { induction classified as [|[lang files] rest IH]; intros n puts;
      cbn [fold_left PipelineSpec.allow_listed_files flat_map].
    - cbn. now rewrite Nat.add_0_r, app_nil_r.
    - destruct (in_dec string_dec lang PipelineSpec.allow_list) as [Hin|Hout].
      + apply supported_allow_list in Hin. rewrite Hin. cbn [negb].
        rewrite dispatch_files_closed, IH.
        rewrite length_app, map_app, length_map, <- app_assoc, Nat.add_assoc.
        reflexivity.
      + assert (Hs : supported lang = false).
        { destruct (supported lang) eqn:E; [|reflexivity].
          now apply supported_allow_list in E. }
        rewrite Hs. cbn [negb]. rewrite IH. reflexivity. }
  apply (Hgen 0 []).
Qed.

(** ** One task in a worker *)

Section Worker.
Variable UAST : Type.
Variable islink : string -> bool.
Variable readlink : string -> option string.
Variable stat_size : string -> option Z.
Variable parse_uast : nat -> string -> string -> reply UAST.

Local Abbreviation handle_task := (handle_task UAST islink readlink stat_size parse_uast).

Lemma handle_task_puts_once : forall thread_index t,
  exists outcome, puts (fst (handle_task thread_index t)) = [outcome].
Proof.
  intros thread_index [filename language]. unfold Pipeline.handle_task.
  destruct (islink filename); [destruct (readlink filename) as [resolved|]|];
    cbn [lift bind pure raise try_except emit app fst puts];
    try (eexists; reflexivity);
    match goal with
    | |- context [stat_size ?f] => destruct (stat_size f) as [size|]
    end;
    cbn [lift bind pure raise try_except emit app fst puts];
    try (eexists; reflexivity);
    destruct (size >? MAX_FILE_SIZE)%Z;
    cbn [lift bind pure raise try_except emit app fst puts];
    try (eexists; reflexivity);
    unfold call_parse;
    match goal with
    | |- context [parse_uast ?i ?f ?l] => destruct (parse_uast i f l)
    end;
    cbn [lift bind pure raise try_except emit app fst puts];
    eexists; reflexivity.
Qed.

(** C5. When the size of the file, after a symbolic link has been resolved,
    exceeds 200000, the worker logs, puts one null outcome on the result
    queue and does not call the parser. *)
Theorem oversize_file_never_parsed : forall thread_index filename language resolved size,
  (if islink filename then readlink filename else Some filename) = Some resolved ->
  stat_size resolved = Some size ->
  (200000 < size)%Z ->
  let trace := fst (handle_task thread_index (filename, language)) in
  trace = [LogTooBig resolved size; Put None]
  /\ puts trace = [None]
  /\ parse_calls trace = [].
Proof.
  intros thread_index filename language resolved size Hres Hstat Hsize trace.
  assert (Htrace : trace = [LogTooBig resolved size; Put None]).
  { subst trace. unfold Pipeline.handle_task.
    assert (Hbig : (size >? MAX_FILE_SIZE)%Z = true).
    { unfold MAX_FILE_SIZE. apply Z.gtb_lt. assumption. }
    destruct (islink filename).
    - rewrite Hres. cbn [lift bind pure]. rewrite Hstat. cbn [lift bind pure].
      rewrite Hbig. reflexivity.
    - inversion Hres; subst resolved. cbn [lift bind pure].
      rewrite Hstat. cbn [lift bind pure]. rewrite Hbig. reflexivity. }
  rewrite Htrace. repeat split.
Qed.

End Worker.

Lemma oversize_file_never_parsed_witness :
  parse_calls
    (fst (handle_task unit (fun _ => false) (fun _ => None) (fun _ => Some 200001%Z)
            (fun _ _ _ => Tree tt) 0 ("/repo/big.py", "Python")))
  = [].
Proof.
  apply (oversize_file_never_parsed unit (fun _ => false) (fun _ => None)
           (fun _ => Some 200001%Z) (fun _ _ _ => Tree tt) 0 "/repo/big.py" "Python"
           "/repo/big.py" 200001%Z); [reflexivity | reflexivity | lia].
Defined.

(** ** Accounting in the pool *)

Definition is_task (x : option task) : nat :=
  match x with
  | Some _ => 1
  | None => 0
  end.

Definition is_sentinel (x : option task) : nat :=
  match x with
  | Some _ => 0
  | None => 1
  end.

Definition exited (w : worker) : nat :=
  match w with
  | Exited => 1
  | _ => 0
  end.

Definition queued_tasks (q : list (option task)) : nat := list_sum (map is_task q).
Definition queued_sentinels (q : list (option task)) : nat := list_sum (map is_sentinel q).
Definition busy_count (p : list worker) : nat := list_sum (map busy p).
Definition exited_count (p : list worker) : nat := list_sum (map exited p).

(** No task is queued behind a sentinel. *)
Fixpoint tasks_first (q : list (option task)) : Prop :=
  match q with
  | [] => True
  | Some _ :: q' => tasks_first q'
  | None :: q' => queued_tasks q' = 0
  end.

Definition pending_tasks (ph : phase) : nat :=
  match ph with
  | Dispatching todo => List.length todo
  | _ => 0
  end.

Definition pending_sentinels (npool : nat) (ph : phase) : nat :=
  match ph with
  | Dispatching _ => npool
  | Signalling k => k
  | _ => 0
  end.

Definition past_loop (ph : phase) : Prop :=
  match ph with
  | Joining | Finished => True
  | _ => False
  end.

Lemma queued_tasks_snoc : forall q x, queued_tasks (q ++ [x]) = queued_tasks q + is_task x.
Proof.
  intros. unfold queued_tasks. rewrite map_app, list_sum_app. simpl. lia.
Qed.

Lemma queued_tasks_cons : forall q x, queued_tasks (x :: q) = is_task x + queued_tasks q.
Proof. reflexivity. Qed.

Lemma queued_sentinels_cons : forall q x,
  queued_sentinels (x :: q) = is_sentinel x + queued_sentinels q.
Proof. reflexivity. Qed.

Lemma queued_sentinels_snoc : forall q x,
  queued_sentinels (q ++ [x]) = queued_sentinels q + is_sentinel x.
Proof.
  intros. unfold queued_sentinels. rewrite map_app, list_sum_app. simpl. lia.
Qed.

Lemma busy_count_split : forall p1 w p2,
  busy_count (p1 ++ w :: p2) = busy_count p1 + busy w + busy_count p2.
Proof.
  intros. unfold busy_count. rewrite map_app, list_sum_app. simpl. lia.
Qed.

Lemma exited_count_split : forall p1 w p2,
  exited_count (p1 ++ w :: p2) = exited_count p1 + exited w + exited_count p2.
Proof.
  intros. unfold exited_count. rewrite map_app, list_sum_app. simpl. lia.
Qed.

Lemma length_split : forall (p1 : list worker) w p2,
  List.length (p1 ++ w :: p2) = List.length p1 + 1 + List.length p2.
Proof. intros. rewrite length_app. simpl. lia. Qed.

Lemma pool_of_idle : forall n,
  List.length (repeat Idle n) = n
  /\ busy_count (repeat Idle n) = 0 /\ exited_count (repeat Idle n) = 0.
Proof.
  induction n as [|n (H1 & H2 & H3)]; [repeat split|].
  unfold busy_count, exited_count in *. simpl. rewrite H1, H2, H3. repeat split.
Qed.

Lemma no_task_tasks_first : forall q, queued_tasks q = 0 -> tasks_first q.
Proof.
  induction q as [|[t|] q IH]; intros H; simpl; [exact I | |].
  - unfold queued_tasks in H. simpl in H. lia.
  - exact H.
Qed.

Lemma tasks_first_tail : forall x q, tasks_first (x :: q) -> tasks_first q.
Proof.
  intros [t|] q H; [exact H | now apply no_task_tasks_first].
Qed.

Lemma tasks_first_sentinel : forall q, tasks_first q -> tasks_first (q ++ [None]).
Proof.
  induction q as [|[t|] q IH]; intros H; simpl in *.
  - reflexivity.
  - now apply IH.
  - rewrite queued_tasks_snoc. simpl. lia.
Qed.

Lemma tasks_first_task : forall q t,
  queued_sentinels q = 0 -> tasks_first (q ++ [Some t]).
Proof.
  induction q as [|[t'|] q IH]; intros t H; simpl.
  - exact I.
  - apply IH. exact H.
  - unfold queued_sentinels in H. simpl in H. lia.
Qed.

Lemma busy_worker : forall p,
  0 < busy_count p -> exists p1 t p2, p = p1 ++ Busy t :: p2.
Proof.
  induction p as [|w p IH]; intros H.
  - unfold busy_count in H. simpl in H. lia.
  - destruct w as [|t|].
    + destruct IH as (p1 & t & p2 & ->); [exact H|]. now exists (Idle :: p1), t, p2.
    + now exists [], t, p.
    + destruct IH as (p1 & t & p2 & ->); [exact H|]. now exists (Exited :: p1), t, p2.
Qed.

Lemma idle_worker : forall p,
  busy_count p = 0 -> exited_count p < List.length p ->
  exists p1 p2, p = p1 ++ Idle :: p2.
Proof.
  induction p as [|w p IH]; intros Hb He.
  - simpl in He. lia.
  - destruct w as [|t|].
    + now exists [], p.
    + unfold busy_count in Hb. simpl in Hb. lia.
    + destruct IH as (p1 & p2 & ->).
      * exact Hb.
      * unfold exited_count in *. simpl in He. lia.
      * now exists (Exited :: p1), p2.
Qed.

Lemma exited_count_le : forall p, exited_count p <= List.length p.
Proof.
  induction p as [|w p IH]; [unfold exited_count; simpl; lia|].
  unfold exited_count in *. destruct w; simpl; lia.
Qed.

Lemma all_exited : forall p,
  exited_count p = List.length p -> Forall (fun w => w = Exited) p.
Proof.
  induction p as [|w p IH]; intros H; [constructor|].
  pose proof (exited_count_le p) as Hle.
  unfold exited_count in *. destruct w; simpl in H; try lia.
  constructor; [reflexivity | apply IH; lia].
Qed.

(** ** The pool and the collector together *)

Section Run.
Variable UAST : Type.
Variable islink : string -> bool.
Variable readlink : string -> option string.
Variable stat_size : string -> option Z.
Variable parse_uast : nat -> string -> string -> reply UAST.

Local Abbreviation step := (step UAST islink readlink stat_size parse_uast).
Local Abbreviation steps := (steps UAST islink readlink stat_size parse_uast).

(** What holds in every state of a run with [npool] workers and [n]
    dispatched tasks. *)
Record invariant (npool n : nat) (s : state UAST) : Prop := {
  inv_pool : List.length (pool s) = npool;
  inv_count : tasks s + received s + pending_tasks (at_phase s) = n;
  inv_flow :
    queued_tasks (queue_in s) + busy_count (pool s) + List.length (queue_out s) = tasks s;
  inv_sentinels :
    queued_sentinels (queue_in s) + exited_count (pool s)
    + pending_sentinels npool (at_phase s) = npool;
  inv_yield : List.length (yielded s) <= received s;
  inv_order : tasks_first (queue_in s);
  inv_alive : 0 < exited_count (pool s) -> queued_tasks (queue_in s) = 0;
  inv_loop : past_loop (at_phase s) -> tasks s = 0
}.

Lemma invariant_start : forall ncpu target_dir classified,
  invariant ncpu (List.length (PipelineSpec.allow_listed_files classified))
    (start UAST ncpu target_dir classified).
Proof.
  intros ncpu target_dir classified.
  destruct (pool_of_idle ncpu) as (Hlen & Hbusy & Hexit).
  constructor; unfold start; cbn [pool tasks received at_phase queue_in queue_out yielded].
  - exact Hlen.
  - rewrite dispatch_closed. cbn [snd pending_tasks]. now rewrite length_map.
  - rewrite Hbusy. reflexivity.
  - rewrite Hexit. cbn. lia.
  - cbn. lia.
  - exact I.
  - rewrite Hexit. lia.
  - intros [].
Qed.

Lemma yield_result_length : forall ys (result : option UAST),
  List.length (yield_result UAST ys result) <= List.length ys + 1.
Proof.
  intros ys [u|]; cbn; [rewrite length_app; cbn|]; lia.
Qed.

Ltac pool_simpl :=
  cbn [pool tasks received at_phase queue_in queue_out yielded
       pending_tasks pending_sentinels past_loop List.length] in *;
  rewrite ?queued_tasks_snoc, ?queued_sentinels_snoc, ?queued_tasks_cons,
    ?queued_sentinels_cons, ?busy_count_split, ?exited_count_split, ?length_split,
    ?length_app in *;
  cbn [is_task is_sentinel busy exited List.length tasks_first] in *.

Ltac pool_field :=
  first
    [ lia
    | assumption
    | exact I
    | reflexivity
    | apply tasks_first_task; lia
    | apply tasks_first_sentinel; assumption
    | apply no_task_tasks_first; assumption
    | intros; lia ].

Lemma invariant_step : forall npool n s s',
  invariant npool n s -> step s s' -> invariant npool n s'.
Proof.
  intros npool n s s' [Hpool Hcount Hflow Hsent Hyield Horder Halive Hloop] Hstep.
  destruct Hstep; pool_simpl.
  - (* a task is put *)
    constructor; pool_simpl; pool_field.
  - (* the interval is computed *)
    constructor; pool_simpl; pool_field.
  - (* a sentinel is put *)
    constructor; pool_simpl; pool_field.
  - (* the loop is entered *)
    constructor; pool_simpl; pool_field.
  - (* a result is read *)
    pose proof (yield_result_length ys result).
    constructor; pool_simpl; pool_field.
  - (* the loop is left *)
    constructor; pool_simpl; pool_field.
  - (* the pool is joined *)
    constructor; pool_simpl; pool_field.
  - (* a worker takes a task *)
    constructor; pool_simpl; pool_field.
  - (* a worker takes a sentinel *)
    constructor; pool_simpl; pool_field.
  - (* a worker has processed its task *)
    destruct (handle_task_puts_once UAST islink readlink stat_size parse_uast
                (List.length p1) t) as [outcome Hput].
    constructor; pool_simpl; rewrite ?Hput; pool_simpl; pool_field.
Qed.

Lemma weight_unfold : forall s : state UAST,
  weight s
  = main_weight (List.length (pool s)) (at_phase s)
    + 3 * List.length (queue_in s) + 2 * busy_count (pool s)
    + List.length (queue_out s).
Proof. reflexivity. Qed.

Lemma step_decreases : forall s s', step s s' -> weight s' < weight s.
Proof.
  intros s s' Hstep.
  destruct Hstep; rewrite !weight_unfold; pool_simpl;
    cbn [main_weight List.length]; try lia.
  destruct (handle_task_puts_once UAST islink readlink stat_size parse_uast
              (List.length p1) t) as [outcome Hput].
  rewrite Hput. cbn [List.length]. lia.
Qed.

Lemma step_possible : forall npool n s,
  invariant npool n s -> 0 < npool -> at_phase s <> Finished ->
  exists s', step s s'.
Proof.
  intros npool n [qi qo p n0 ri ys rc lg ph]
    [Hpool Hcount Hflow Hsent Hyield Horder Halive Hloop] Hn Hph.
  pool_simpl.
  assert (Hworker : 0 < busy_count p -> exists s',
             step {| queue_in := qi; queue_out := qo; pool := p; tasks := n0;
                     report_interval := ri; yielded := ys; received := rc;
                     progress := lg; at_phase := ph |} s').
  { intros Hb. destruct (busy_worker p Hb) as (p1 & t & p2 & ->).
    eexists. apply worker_done. }
  assert (Hidle : busy_count p = 0 -> exited_count p < List.length p ->
             qi <> [] -> exists s',
             step {| queue_in := qi; queue_out := qo; pool := p; tasks := n0;
                     report_interval := ri; yielded := ys; received := rc;
                     progress := lg; at_phase := ph |} s').
  { intros Hb He Hq. destruct (idle_worker p Hb He) as (p1 & p2 & ->).
    destruct qi as [|[t|] qi]; [congruence | |].
    - eexists. apply worker_get_task.
    - eexists. apply worker_get_sentinel. }
  destruct ph as [todo|k| | |].
  - destruct todo; eexists; constructor.
  - destruct k; eexists; constructor.
  - destruct n0 as [|n0]; [eexists; apply main_leave_loop|].
    destruct qo as [|result qo]; [|eexists; apply main_get_result; lia].
    destruct (Nat.eq_dec (busy_count p) 0) as [Hb|Hb]; [|apply Hworker; lia].
    cbn [List.length] in Hflow.
    apply Hidle; [assumption | |].
    + destruct (Nat.eq_dec (exited_count p) 0) as [He|He]; [lia|].
      assert (queued_tasks qi = 0) by (apply Halive; lia). lia.
    + intros ->. cbn in Hflow. lia.
  - destruct (Nat.eq_dec (exited_count p) (List.length p)) as [He|He].
    { eexists. apply main_joined. now apply all_exited. }
    destruct (Nat.eq_dec (busy_count p) 0) as [Hb|Hb]; [|apply Hworker; lia].
    pose proof (exited_count_le p).
    apply Hidle; [assumption | lia |].
    intros ->. cbn in Hsent. lia.
  - congruence.
Qed.

Lemma steps_invariant : forall npool n s s',
  invariant npool n s -> steps s s' -> invariant npool n s'.
Proof.
  intros npool n s s' Hinv Hsteps.
  induction Hsteps as [|s1 s2 s3 _ IH Hstep]; [assumption|].
  eapply invariant_step; [apply IH; assumption | eassumption].
Qed.

Lemma steps_first : forall s1 s2 s3, step s1 s2 -> steps s2 s3 -> steps s1 s3.
Proof.
  intros s1 s2 s3 Hstep Hsteps. induction Hsteps as [|s2 s3 s4 _ IH Hlast].
  - eapply steps_more; [apply steps_refl | assumption].
  - eapply steps_more; [apply IH; assumption | assumption].
Qed.

Lemma run_finishes : forall npool n s,
  invariant npool n s -> 0 < npool ->
  exists s', steps s s' /\ at_phase s' = Finished.
Proof.
  intros npool n s Hinv Hn.
  remember (weight s) as w eqn:Hw. revert s Hinv Hw.
  induction w as [w IH] using lt_wf_ind. intros s Hinv Hw.
  destruct (at_phase s) eqn:Hph;
    try (destruct (step_possible npool n s Hinv Hn) as [s1 Hstep]; [congruence|];
         destruct (IH (weight s1)) with (s := s1) as (s' & Hsteps & Hfin);
         [ subst w; now apply step_decreases
         | eapply invariant_step; eassumption
         | reflexivity
         | exists s'; split; [eapply steps_first; eassumption | assumption] ]).
  exists s. split; [apply steps_refl | assumption].
Qed.

Lemma leave_loop_enabled : forall s : state UAST,
  at_phase s = Collecting -> tasks s = 0 ->
  exists s', step s s' /\ at_phase s' = Joining.
Proof.
  intros [qi qo p n0 ri ys rc lg ph] Hph Hzero. cbn in Hph, Hzero. subst ph n0.
  eexists. split; [apply main_leave_loop | reflexivity].
Qed.

Definition in_loop_or_after (ph : phase) : Prop :=
  match ph with
  | Collecting | Joining | Finished => True
  | _ => False
  end.

End Run.

Lemma allow_listed_language : forall classified lang f,
  In (lang, f) (PipelineSpec.allow_listed_files classified) ->
  In lang PipelineSpec.allow_list.
Proof.
  intros classified lang f H. unfold PipelineSpec.allow_listed_files in H.
  apply in_flat_map in H as ([l files] & _ & H).
  destruct (in_dec string_dec l PipelineSpec.allow_list) as [Hin|]; [|destruct H].
  apply in_map_iff in H as (x & E & _). now inversion E; subst.
Qed.

Lemma allow_listed_skips : forall before lang files after,
  ~ In lang PipelineSpec.allow_list ->
  PipelineSpec.allow_listed_files (before ++ (lang, files) :: after)
  = PipelineSpec.allow_listed_files (before ++ after).
Proof.
  intros before lang files after Hout. unfold PipelineSpec.allow_listed_files.
  rewrite !flat_map_app. cbn [flat_map].
  destruct (in_dec string_dec lang PipelineSpec.allow_list); [contradiction|].
  reflexivity.
Qed.

(** C6. The dispatcher puts one task per classified file whose language is
    "Python" or "Java", in the order of the mapping, and counts them; every
    task carries one of these two languages; an entry of another language
    changes nothing; on the empty mapping nothing is dispatched, no run
    ever reads or yields a result, and the run finishes. *)
Theorem dispatch_one_task_per_supported_file : forall target_dir classified,
  dispatch target_dir classified
  = (List.length (PipelineSpec.allow_listed_files classified),
     map (task_of target_dir) (PipelineSpec.allow_listed_files classified))
  /\ (forall t, In t (snd (dispatch target_dir classified)) ->
      snd t = "Python" \/ snd t = "Java")
  /\ (forall before lang files after,
        lang <> "Python" -> lang <> "Java" ->
        classified = before ++ (lang, files) :: after ->
        dispatch target_dir classified = dispatch target_dir (before ++ after))
  /\ dispatch target_dir [] = (0, [])
  /\ (forall UAST islink readlink stat_size parse_uast ncpu s,
        steps UAST islink readlink stat_size parse_uast
          (start UAST ncpu target_dir []) s ->
        yielded s = [] /\ received s = 0 /\ tasks s = 0)
  /\ (forall UAST islink readlink stat_size parse_uast ncpu,
        0 < ncpu ->
        exists s,
          steps UAST islink readlink stat_size parse_uast
            (start UAST ncpu target_dir []) s
          /\ at_phase s = Finished /\ yielded s = []).
Proof.
  intros target_dir classified.
  assert (Hempty : forall UAST islink readlink stat_size parse_uast ncpu s,
             steps UAST islink readlink stat_size parse_uast
               (start UAST ncpu target_dir []) s ->
             yielded s = [] /\ received s = 0 /\ tasks s = 0).
  { intros UAST islink readlink stat_size parse_uast ncpu s Hrun.
    assert (Hinv : invariant UAST ncpu 0 s).
    { eapply steps_invariant; [|exact Hrun].
      apply (invariant_start UAST ncpu target_dir []). }
    destruct Hinv as [_ Hcount _ _ Hyield _ _ _].
    repeat split; try lia.
    destruct (yielded s); [reflexivity | cbn in Hyield; lia]. }
  split; [apply dispatch_closed|].
  split.
  { intros t Ht. rewrite dispatch_closed in Ht. cbn [snd] in Ht.
    apply in_map_iff in Ht as ([lang f] & <- & Hin).
    apply allow_listed_language in Hin. cbn.
    destruct Hin as [<-|[<-|[]]]; auto. }
  split.
  { intros before lang files after Hpy Hjava ->.
    rewrite !dispatch_closed, allow_listed_skips; [reflexivity|].
    intros [E|[E|[]]]; congruence. }
  split; [reflexivity|].
  split; [exact Hempty|].
  intros UAST islink readlink stat_size parse_uast ncpu Hcpu.
  destruct (run_finishes UAST islink readlink stat_size parse_uast ncpu 0
              (start UAST ncpu target_dir []))
    as (s & Hrun & Hfin); [apply (invariant_start UAST ncpu target_dir []) | exact Hcpu |].
  exists s. repeat split; try assumption.
  now destruct (Hempty _ _ _ _ _ _ _ Hrun).
Qed.

Lemma dispatch_one_task_per_supported_file_witness :
  dispatch "/repo" [("Python", ["a.py"]); ("Go", ["m.go"]); ("Java", ["B.java"])]
  = dispatch "/repo" ([("Python", ["a.py"])] ++ [("Java", ["B.java"])])
  /\ dispatch "/repo" [("Python", ["a.py"]); ("Java", ["B.java"])]
     = (2, [("/repo/a.py", "Python"); ("/repo/B.java", "Java")]).
Proof.
  split; [|reflexivity].
  destruct (dispatch_one_task_per_supported_file "/repo"
              [("Python", ["a.py"]); ("Go", ["m.go"]); ("Java", ["B.java"])])
    as (_ & _ & Hskip & _).
  apply (Hskip [("Python", ["a.py"])] "Go" ["m.go"] [("Java", ["B.java"])]);
    [discriminate | discriminate | reflexivity].
Defined.

(** ** Repository acquisition *)

Section Acquisition.
Variables Classified Result : Type.
Variable path_exists : string -> bool.
Variable mkdtemp : option string.
Variable git_clone : string -> string -> Repository.clone_result.
Variable classify_files : string -> option Classified.
Variable convert_uasts : string -> Classified -> option Result.
Variable rmtree : string -> bool.

Local Abbreviation convert_repository :=
  (Repository.convert_repository Classified Result path_exists mkdtemp git_clone
     classify_files convert_uasts rmtree).

(** Every way out of [convert_repository] but one calls [rmtree] on the
    directory it made, once, as the last thing done. *)
Lemma convert_repository_cleans_up : forall url_or_path d,
  path_exists url_or_path = false -> mkdtemp = Some d ->
  git_clone url_or_path d <> Repository.CloneInterrupted ->
  let tr := fst (convert_repository url_or_path) in
  Repository.created tr = [d] /\ Repository.removed tr = [d]
  /\ exists before, tr = before ++ [Repository.Rmtree d].
Proof.
  intros url_or_path d Hex Hmk Hclone.
  unfold Repository.convert_repository, Repository.acquire, Repository.process,
    Repository.cleanup.
  rewrite Hex, Hmk. cbn [negb].
  destruct (git_clone url_or_path d); [| |congruence].
  - destruct (classify_files d) as [c|]; [destruct (convert_uasts d c)|];
      cbn [fst snd app Repository.created Repository.removed flat_map];
      (split; [reflexivity | split; [reflexivity|]]).
    + now exists [Repository.Mkdtemp d; Repository.Clone url_or_path d;
                  Repository.Classify d; Repository.Convert d].
    + now exists [Repository.Mkdtemp d; Repository.Clone url_or_path d;
                  Repository.Classify d; Repository.Convert d].
    + now exists [Repository.Mkdtemp d; Repository.Clone url_or_path d;
                  Repository.Classify d].
  - cbn. split; [reflexivity | split; [reflexivity|]].
    now exists [Repository.Mkdtemp d; Repository.Clone url_or_path d].
Qed.

Lemma convert_repository_in_place : forall url_or_path,
  path_exists url_or_path = true ->
  let tr := fst (convert_repository url_or_path) in
  Repository.created tr = [] /\ Repository.removed tr = []
  /\ Repository.classified_dirs tr = [url_or_path].
Proof.
  intros url_or_path Hex.
  unfold Repository.convert_repository, Repository.acquire, Repository.process,
    Repository.cleanup.
  rewrite Hex. cbn [negb].
  destruct (classify_files url_or_path) as [c|];
    [destruct (convert_uasts url_or_path c)|]; cbn; auto.
Qed.

(** C10.  The claim fails on one way out.  When the argument does not
    exist and the clone is left by a [BaseException] that is not an
    [Exception] (a [KeyboardInterrupt] while [git clone] runs), the
    handler [except Exception] is not entered: [convert_repository] raises
    and the directory made by [mkdtemp] is never passed to [rmtree].  On
    every other way out of the same call (the clone raising an
    [Exception], a later stage left by any exception, also a
    [KeyboardInterrupt], or the normal return) [rmtree] is called on that
    directory, once, as the last thing done; and an argument that exists
    is used in place and never removed. *)
Theorem interrupted_clone_leaves_directory : forall url_or_path d,
  path_exists url_or_path = false -> mkdtemp = Some d ->
  (git_clone url_or_path d = Repository.CloneInterrupted ->
   convert_repository url_or_path
   = ([Repository.Mkdtemp d; Repository.Clone url_or_path d], Repository.Raised Result)
   /\ Repository.created (fst (convert_repository url_or_path)) = [d]
   /\ Repository.removed (fst (convert_repository url_or_path)) = [])
  /\ (git_clone url_or_path d <> Repository.CloneInterrupted ->
      Repository.created (fst (convert_repository url_or_path)) = [d]
      /\ Repository.removed (fst (convert_repository url_or_path)) = [d]
      /\ exists before,
           fst (convert_repository url_or_path) = before ++ [Repository.Rmtree d]).
Proof.
  intros url_or_path d Hex Hmk. split.
  - intros Hint.
    assert (E : convert_repository url_or_path
                = ([Repository.Mkdtemp d; Repository.Clone url_or_path d],
                   Repository.Raised Result)).
    { unfold Repository.convert_repository, Repository.acquire.
      rewrite Hex, Hmk. cbn [negb]. now rewrite Hint. }
    rewrite E. repeat split.
  - intros Hother. now apply convert_repository_cleans_up.
Qed.

End Acquisition.

(** A URL that is not a path, a clone interrupted from the keyboard. *)
Lemma interrupted_clone_leaves_directory_witness :
  Repository.convert_repository unit unit (fun p => String.eqb p "/src/repo")
    (Some "/tmp/repo2nbow-k3"%string) (fun _ _ => Repository.CloneInterrupted)
    (fun _ => Some tt) (fun _ _ => Some tt) (fun _ => true)
    "https://example.org/r.git"
  = ([Repository.Mkdtemp "/tmp/repo2nbow-k3";
      Repository.Clone "https://example.org/r.git" "/tmp/repo2nbow-k3"],
     Repository.Raised unit).
Proof.
  destruct (interrupted_clone_leaves_directory unit unit
              (fun p => String.eqb p "/src/repo") (Some "/tmp/repo2nbow-k3"%string)
              (fun _ _ => Repository.CloneInterrupted)
              (fun _ => Some tt) (fun _ _ => Some tt) (fun _ => true)
              "https://example.org/r.git" "/tmp/repo2nbow-k3" eq_refl eq_refl)
    as [Hleak _].
  exact (proj1 (Hleak eq_refl)).
Defined.

(** * Further properties *)

(** ** Strings, continued *)

Import Text.

Lemma append_empty_r : forall s, (s ++ "")%string = s.
Proof. induction s as [|c s IH]; simpl; congruence. Qed.

Lemma append_assoc : forall a b c, ((a ++ b) ++ c)%string = (a ++ (b ++ c))%string.
Proof. induction a as [|x a IH]; intros; simpl; congruence. Qed.

Lemma append_length : forall a b,
  String.length (a ++ b) = String.length a + String.length b.
Proof. induction a as [|x a IH]; intros; simpl; congruence. Qed.

Lemma substring_empty : forall n m, substring n m "" = "".
Proof. intros [|n] [|m]; reflexivity. Qed.

Lemma substring_split : forall s a n m,
  (substring a n s ++ substring (a + n) m s)%string = substring a (n + m) s.
Proof.
  induction s as [|c s IH]; intros a n m.
  - now rewrite !substring_empty.
  - destruct a as [|a]; [|apply (IH a n m)].
    destruct n as [|n]; [reflexivity|].
    cbn [Nat.add substring append]. f_equal. apply (IH 0 n m).
Qed.

Lemma substring_all : forall s n, String.length s <= n -> substring 0 n s = s.
Proof.
  induction s as [|c s IH]; intros n Hn.
  - apply substring_empty.
  - destruct n as [|n]; simpl in *; [lia|]. f_equal. apply IH. lia.
Qed.

Lemma substring_length_le : forall s n m, String.length (substring n m s) <= m.
Proof.
  induction s as [|c s IH]; intros n m.
  - rewrite substring_empty. simpl. lia.
  - destruct n as [|n]; [|apply IH].
    destruct m as [|m]; simpl; [lia|]. specialize (IH 0 m). lia.
Qed.

Lemma joined_app : forall l1 l2, joined (l1 ++ l2) = (joined l1 ++ joined l2)%string.
Proof.
  induction l1 as [|w l1 IH]; intros l2; [reflexivity|].
  cbn [app joined fold_right]. fold (joined (l1 ++ l2)) (joined l1).
  now rewrite IH, append_assoc.
Qed.

Lemma joined_collect : forall w tr, joined (collect w tr) = (joined tr ++ w)%string.
Proof.
  intros. unfold collect. rewrite joined_app. cbn. now rewrite append_empty_r.
Qed.

Lemma all_of_app : forall p a b, all_of p (a ++ b) = all_of p a && all_of p b.
Proof.
  induction a as [|c a IH]; intros b; [reflexivity|].
  simpl. now rewrite IH, andb_assoc.
Qed.

Lemma all_of_letters : forall s, all_of isalpha (letters s) = true.
Proof.
  induction s as [|c s IH]; [reflexivity|]. simpl.
  destruct (isalpha c) eqn:E; [simpl; now rewrite E | assumption].
Qed.

Lemma all_of_joined : forall p l,
  all_of p (joined l) = true -> Forall (fun w => all_of p w = true) l.
Proof.
  induction l as [|w l IH]; intros H; [constructor|].
  cbn [joined fold_right] in H. fold (joined l) in H.
  rewrite all_of_app in H. apply andb_true_iff in H as [Hw Hl].
  constructor; [assumption | now apply IH].
Qed.

Lemma length_in_joined : forall l w,
  In w l -> String.length w <= String.length (joined l).
Proof.
  induction l as [|x l IH]; intros w Hin; [destruct Hin|].
  cbn [joined fold_right]. fold (joined l). rewrite append_length.
  destruct Hin as [->|Hin]; [lia|]. specialize (IH w Hin). lia.
Qed.

Lemma letters_length : forall s, String.length (letters s) <= String.length s.
Proof.
  induction s as [|c s IH]; [simpl; lia|].
  simpl. destruct (isalpha c); simpl; lia.
Qed.

Lemma isspace_not_alpha : forall c, isspace c = true -> isalpha c = false.
Proof.
  intros c. destruct c as [[] [] [] [] [] [] [] []]; vm_compute; congruence.
Qed.

Lemma lower_char_islower : forall c, isalpha c = true -> islower (lower_char c) = true.
Proof.
  intros c. destruct c as [[] [] [] [] [] [] [] []]; vm_compute; congruence.
Qed.

Lemma lower_all_lower : forall w,
  all_of isalpha w = true -> all_of islower (lower w) = true.
Proof.
  induction w as [|c w IH]; [reflexivity|]. simpl. intros H.
  apply andb_true_iff in H as [Hc Hw].
  now rewrite lower_char_islower, IH.
Qed.

Lemma letters_lstrip : forall s, letters (lstrip s) = letters s.
Proof.
  induction s as [|c s IH]; [reflexivity|]. simpl.
  destruct (isspace c) eqn:E; [|reflexivity].
  now rewrite (isspace_not_alpha c E).
Qed.

Lemma letters_rstrip : forall s, letters (rstrip s) = letters s.
Proof.
  induction s as [|c s IH]; [reflexivity|].
  cbn [rstrip]. destruct (rstrip s) as [|d r].
  - cbn [letters] in *. rewrite <- IH.
    destruct (isspace c) eqn:E.
    + now rewrite (isspace_not_alpha c E).
    + reflexivity.
  - change (letters (String c (String d r)))
      with (if isalpha c then String c (letters (String d r)) else letters (String d r)).
    rewrite IH. reflexivity.
Qed.

Lemma letters_strip : forall s, letters (strip s) = letters s.
Proof. intros. unfold strip. now rewrite letters_rstrip, letters_lstrip. Qed.

Lemma letters_substring_length : forall s n m,
  String.length (letters (substring n m s)) <= String.length (letters s).
Proof.
  induction s as [|c s IH]; intros n m.
  - rewrite substring_empty. simpl. lia.
  - destruct n as [|n].
    + destruct m as [|m]; [simpl; lia|]. specialize (IH 0 m).
      simpl. destruct (isalpha c); simpl; lia.
    + specialize (IH n m). simpl. destruct (isalpha c); simpl; lia.
Qed.

(** ** The sub-words partition the letters *)

Lemma re_split_joined : forall s in_run cur,
  joined (re_split_from in_run cur s) = (cur ++ letters s)%string.
Proof.
  induction s as [|c s IH]; intros in_run cur; cbn [re_split_from letters].
  - cbn. reflexivity.
  - destruct (isalpha c).
    + rewrite IH, append_assoc. reflexivity.
    + destruct in_run; [apply IH|].
      cbn [joined fold_right]. fold (joined (re_split_from true "" s)).
      now rewrite IH.
Qed.

Lemma scan_step_joined : forall part i prev pos tr,
  1 <= i -> pos < i ->
  exists prev' pos' tr',
    scan_step collect part (prev, pos, tr) i = (prev', pos', tr')
    /\ pos' < S i
    /\ (joined tr' ++ substring pos' (S i - pos') part)%string
       = (joined tr ++ substring pos (S i - pos) part)%string.
Proof.
  intros part i prev pos tr Hi Hpos. unfold scan_step.
  assert (Hcut : forall q, pos <= q -> q <= S i ->
            (joined (collect (slice part pos q) tr) ++ substring q (S i - q) part)%string
            = (joined tr ++ substring pos (S i - pos) part)%string).
  { intros q H1 H2. rewrite joined_collect, append_assoc. unfold slice.
    assert (E1 : q = pos + (q - pos)) by lia.
    assert (E2 : S i - pos = (q - pos) + (S i - q)) by lia.
    rewrite E2. rewrite E1 at 2. now rewrite substring_split. }
  destruct (islower prev && isupper (char_at part i)).
  { eexists _, _, _. split; [reflexivity|]. split; [lia|]. apply Hcut; lia. }
  destruct (isupper prev && islower (char_at part i)).
  2:{ eexists _, _, _. split; [reflexivity|]. split; [lia | reflexivity]. }
  destruct ((0 <? i - 1 - pos) && (i - 1 - pos <=? 3)) eqn:Hrun.
  { apply andb_true_iff in Hrun as [H0 _]. apply Nat.ltb_lt in H0.
    eexists _, _, _. split; [reflexivity|]. split; [lia|]. apply Hcut; lia. }
  destruct (pos <? i - 1).
  - eexists _, _, _. split; [reflexivity|]. split; [lia|]. apply Hcut; lia.
  - eexists _, _, _. split; [reflexivity|]. split; [lia | reflexivity].
Qed.

Lemma scan_joined : forall part k tr0,
  1 <= k ->
  exists prev pos tr,
    scan collect part k tr0 = (prev, pos, tr)
    /\ pos < k
    /\ (joined tr ++ substring pos (k - pos) part)%string
       = (joined tr0 ++ substring 0 k part)%string.
Proof.
  intros part k tr0 Hk.
  induction k as [|k IH]; [lia|].
  destruct (Nat.eq_dec k 0) as [->|Hk0].
  - exists (char_at part 0), 0, tr0. rewrite scan_first. repeat split. lia.
  - destruct IH as (prev & pos & tr & Hs & Hpos & Hj); [lia|].
    rewrite scan_next by lia. rewrite Hs.
    destruct (scan_step_joined part k prev pos tr) as (prev' & pos' & tr' & Hstep & Hpos' & Hj');
      [lia | lia |].
    exists prev', pos', tr'. rewrite Hstep. split; [reflexivity|]. split; [assumption|].
    rewrite Hj'.
    assert (E : S k - pos = (k - pos) + 1) by lia.
    assert (E' : substring 0 (S k) part = substring 0 (k + 1) part) by (f_equal; lia).
    rewrite E, E', <- !substring_split, <- !append_assoc, Hj.
    do 2 f_equal. lia.
Qed.

Lemma split_part_joined : forall part tr,
  joined (split_part collect tr part) = (joined tr ++ part)%string.
Proof.
  intros part tr. unfold split_part.
  destruct (truthy part) eqn:Hp.
  2:{ apply truthy_false in Hp. subst. now rewrite append_empty_r. }
  apply truthy_true in Hp.
  assert (Hlen : 1 <= String.length part) by (destruct part; simpl; [congruence | lia]).
  destruct (scan_joined part (String.length part) tr Hlen) as (prev & pos & tr' & Hs & _ & Hj).
  rewrite Hs. rewrite (substring_all part) in Hj by lia.
  unfold slice_from.
  destruct (truthy (substring pos (String.length part - pos) part)) eqn:Hl.
  - now rewrite joined_collect.
  - apply truthy_false in Hl. rewrite Hl, append_empty_r in Hj. exact Hj.
Qed.

Lemma split_parts_joined : forall parts tr,
  joined (fold_left (split_part collect) parts tr) = (joined tr ++ joined parts)%string.
Proof.
  induction parts as [|part parts IH]; intros tr; cbn [fold_left].
  - cbn. now rewrite append_empty_r.
  - rewrite IH, split_part_joined, append_assoc. reflexivity.
Qed.

Lemma sub_words_joined : forall token,
  joined (sub_words token) = letters (take MAX_TOKEN_LENGTH (strip token)).
Proof.
  intros token. unfold sub_words, split_walk.
  rewrite split_parts_joined. unfold re_split. now rewrite re_split_joined.
Qed.

Lemma sub_words_alpha : forall token,
  Forall (fun w => all_of isalpha w = true) (sub_words token).
Proof.
  intros token. apply all_of_joined. rewrite sub_words_joined. apply all_of_letters.
Qed.

Lemma strip_length : forall s, String.length (strip s) <= String.length s.
Proof.
  intros s. unfold strip.
  assert (Hl : forall t, String.length (lstrip t) <= String.length t).
  { induction t as [|c t IH]; simpl; [lia|]. destruct (isspace c); simpl; lia. }
  assert (Hr : forall t, String.length (rstrip t) <= String.length t).
  { induction t as [|c t IH]; [simpl; lia|]. cbn [rstrip].
    destruct (rstrip t) as [|d r].
    - destruct (isspace c); simpl; lia.
    - simpl in *. lia. }
  specialize (Hl s). specialize (Hr (lstrip s)). lia.
Qed.

(** X1. The sub-words of an identifier are non-empty and, put end to end, give
    the letters of the stripped identifier cut at 256 characters: no
    letter is lost, repeated or reordered.  When the stripped identifier
    has at most 256 characters these are all the letters of the
    identifier. *)
Theorem sub_words_partition_letters : forall token,
  joined (sub_words token) = letters (take 256 (strip token))
  /\ Forall (fun w => w <> EmptyString) (sub_words token)
  /\ (String.length (strip token) <= 256 -> joined (sub_words token) = letters token).
Proof.
  intros token. split; [apply sub_words_joined|].
  split; [apply sub_words_nonempty|].
  intros Hlen. rewrite sub_words_joined. unfold take, MAX_TOKEN_LENGTH.
  rewrite substring_all by assumption. apply letters_strip.
Qed.

Lemma sub_words_partition_letters_witness :
  joined (sub_words " get_HTTPResponse2xx ") = "getHTTPResponsexx".
Proof.
  destruct (sub_words_partition_letters " get_HTTPResponse2xx ") as (_ & _ & H).
  rewrite H; [reflexivity | vm_compute; lia].
Defined.

(** ** What [_split] yields *)

Lemma carry_forward_shape : forall words held,
  Forall (fun w => all_of isalpha w = true) words ->
  (forall h, held = Some h -> all_of islower h = true) ->
  Forall (fun tok => 3 <= String.length tok /\ all_of islower tok = true)
    (Spec.carry_forward held words).
Proof.
  induction words as [|w words IH]; intros held Hw Hh; [constructor|].
  inversion Hw as [|? ? Hw1 Hw2]; subst. cbn [Spec.carry_forward].
  pose proof (lower_all_lower w Hw1) as Hlow.
  destruct (3 <=? String.length w) eqn:Hlen.
  - apply Nat.leb_le in Hlen.
    assert (Hnone : Forall (fun tok => 3 <= String.length tok /\ all_of islower tok = true)
                      (Spec.carry_forward None words)).
    { apply IH; [assumption | discriminate]. }
    destruct held as [h|]; constructor; try assumption.
    + now rewrite lower_length.
    + constructor; [|assumption]. rewrite append_length, lower_length, all_of_app.
      rewrite (Hh h eq_refl), Hlow. split; [lia | reflexivity].
    + now rewrite lower_length.
  - apply IH; [assumption|]. intros h E. now inversion E; subst.
Qed.

Lemma carry_forward_length : forall words held tok,
  In tok (Spec.carry_forward held words) ->
  String.length tok
  <= match held with Some h => String.length h | None => 0 end
     + String.length (joined words).
Proof.
  induction words as [|w words IH]; intros held tok Hin; [destruct Hin|].
  cbn [Spec.carry_forward] in Hin. cbn [joined fold_right]. fold (joined words).
  rewrite append_length.
  destruct (3 <=? String.length w).
  - destruct held as [h|].
    + destruct Hin as [<-|[<-|Hin]].
      * rewrite lower_length. lia.
      * rewrite append_length, lower_length. lia.
      * specialize (IH None tok Hin). cbn in IH. lia.
    + destruct Hin as [<-|Hin].
      * rewrite lower_length. lia.
      * specialize (IH None tok Hin). cbn in IH. lia.
  - specialize (IH (Some (lower w)) tok Hin). cbn in IH.
    rewrite lower_length in IH. lia.
Qed.

Lemma split_carry_forward : forall token,
  _split token = Spec.carry_forward None (sub_words token).
Proof.
  intros token. unfold _split.
  rewrite split_walk_replay, replay_ret by apply sub_words_nonempty.
  reflexivity.
Qed.

(** X2. Every token yielded by [_split] consists of lowercase letters [a-z]
    only and has between 3 and 256 characters. *)
Theorem split_tokens_are_lowercase_words : forall token tok,
  In tok (_split token) ->
  3 <= String.length tok <= 256 /\ all_of islower tok = true.
Proof.
  intros token tok Hin. rewrite split_carry_forward in Hin.
  pose proof (carry_forward_shape (sub_words token) None (sub_words_alpha token)) as Hshape.
  rewrite Forall_forall in Hshape.
  destruct (Hshape ltac:(discriminate) tok Hin) as [Hmin Hlow].
  pose proof (carry_forward_length _ _ _ Hin) as Hmax. cbn in Hmax.
  rewrite sub_words_joined in Hmax.
  pose proof (letters_length (take MAX_TOKEN_LENGTH (strip token))) as H1.
  pose proof (substring_length_le (strip token) 0 MAX_TOKEN_LENGTH) as H2.
  unfold take in *. unfold MAX_TOKEN_LENGTH in *. repeat split; try assumption. lia.
Qed.

Lemma split_tokens_are_lowercase_words_witness :
  3 <= String.length "asetting" <= 256 /\ all_of islower "asetting" = true.
Proof.
  apply (split_tokens_are_lowercase_words "a_Setting" "asetting").
  vm_compute. right. left. reflexivity.
Defined.

Lemma carry_forward_short : forall words held,
  Forall (fun w => String.length w < 3) words -> Spec.carry_forward held words = [].
Proof.
  induction words as [|w words IH]; intros held H; [reflexivity|].
  inversion H as [|? ? Hw Hrest]; subst. cbn [Spec.carry_forward].
  apply Nat.leb_gt in Hw. rewrite Hw. now apply IH.
Qed.

(** X3. An identifier with fewer than three letters yields no token at all. *)
Theorem split_needs_three_letters : forall token,
  String.length (letters token) < 3 -> _split token = [].
Proof.
  intros token Hlen. rewrite split_carry_forward. apply carry_forward_short.
  apply Forall_forall. intros w Hin.
  apply length_in_joined in Hin. rewrite sub_words_joined in Hin.
  pose proof (letters_substring_length (strip token) 0 MAX_TOKEN_LENGTH) as H1.
  rewrite letters_strip in H1. unfold take in Hin. lia.
Qed.

Lemma split_needs_three_letters_witness : _split "_i2_j" = [].
Proof. apply split_needs_three_letters. vm_compute. lia. Defined.

(** ** Identifiers without an inner boundary *)

Lemma char_at_all_of : forall p s i,
  all_of p s = true -> i < String.length s -> p (char_at s i) = true.
Proof.
  intros p. induction s as [|c s IH]; intros i H Hi; simpl in Hi; [lia|].
  simpl in H. apply andb_true_iff in H as [Hc Hs].
  destruct i as [|i]; [exact Hc|].
  unfold char_at in *. simpl. apply IH; [assumption | lia].
Qed.

Lemma lstrip_id : forall s, all_of isalpha s = true -> lstrip s = s.
Proof.
  intros [|c s] H; [reflexivity|]. simpl in *.
  apply andb_true_iff in H as [Hc _].
  destruct (isspace c) eqn:E; [|reflexivity].
  apply isspace_not_alpha in E. congruence.
Qed.

Lemma rstrip_id : forall s, all_of isalpha s = true -> rstrip s = s.
Proof.
  induction s as [|c s IH]; intros H; [reflexivity|].
  simpl in H. apply andb_true_iff in H as [Hc Hs].
  cbn [rstrip]. rewrite (IH Hs). destruct s as [|d s]; [|reflexivity].
  destruct (isspace c) eqn:E; [|reflexivity].
  apply isspace_not_alpha in E. congruence.
Qed.

Lemma re_split_alpha : forall s in_run cur,
  all_of isalpha s = true -> re_split_from in_run cur s = [(cur ++ s)%string].
Proof.
  induction s as [|c s IH]; intros in_run cur H.
  - cbn. now rewrite append_empty_r.
  - simpl in H. apply andb_true_iff in H as [Hc Hs].
    cbn [re_split_from]. rewrite Hc, (IH _ _ Hs), append_assoc. reflexivity.
Qed.

(** No call of [ret] at iteration [i] when the window starts at 0. *)
Definition quiet (part : string) (i : nat) : Prop :=
  islower (char_at part (i - 1)) && isupper (char_at part i) = false
  /\ (isupper (char_at part (i - 1)) && islower (char_at part i) = true -> i = 1).

Lemma scan_quiet : forall {St} (h : string -> St -> St) part k s,
  1 <= k -> (forall i, 1 <= i < k -> quiet part i) ->
  scan h part k s = (char_at part (k - 1), 0, s).
Proof.
  intros St h part k s Hk Hq.
  induction k as [|k IH]; [lia|].
  destruct (Nat.eq_dec k 0) as [->|Hk0]; [apply scan_first|].
  rewrite scan_next by lia. rewrite IH; [|lia|intros i Hi; apply Hq; lia].
  destruct (Hq k ltac:(lia)) as [H1 H2].
  unfold scan_step. rewrite H1.
  replace (S k - 1) with k by lia.
  destruct (isupper (char_at part (k - 1)) && islower (char_at part k)).
  - specialize (H2 eq_refl). subst k. reflexivity.
  - reflexivity.
Qed.

Lemma split_part_whole : forall {St} (h : string -> St -> St) part s,
  part <> EmptyString ->
  (forall i, 1 <= i < String.length part -> quiet part i) ->
  split_part h s part = h part s.
Proof.
  intros St h part s Hne Hq. unfold split_part.
  assert (Ht : truthy part = true) by now apply truthy_true.
  rewrite Ht.
  assert (Hlen : 1 <= String.length part) by (destruct part; simpl; [congruence | lia]).
  rewrite scan_quiet by assumption.
  unfold slice_from. rewrite Nat.sub_0_r, substring_all by lia. now rewrite Ht.
Qed.

Lemma single_case_quiet : forall part,
  all_of islower part = true \/ all_of isupper part = true \/ capitalized part = true ->
  forall i, 1 <= i < String.length part -> quiet part i.
Proof.
  intros part Hshape i Hi. unfold quiet.
  destruct Hshape as [Hl|[Hu|Hc]].
  - pose proof (char_at_all_of _ _ (i - 1) Hl ltac:(lia)) as Hp.
    pose proof (char_at_all_of _ _ i Hl ltac:(lia)) as Ht.
    rewrite (islower_not_isupper _ Hp), (islower_not_isupper _ Ht), andb_false_r.
    split; [reflexivity | discriminate].
  - pose proof (char_at_all_of _ _ (i - 1) Hu ltac:(lia)) as Hp.
    pose proof (char_at_all_of _ _ i Hu ltac:(lia)) as Ht.
    rewrite (isupper_not_islower _ Hp), (isupper_not_islower _ Ht), andb_false_r.
    split; [reflexivity | discriminate].
  - destruct part as [|c rest]; [discriminate|]. cbn [capitalized] in Hc.
    apply andb_true_iff in Hc as [Hc Hrest]. simpl in Hi.
    destruct i as [|i]; [lia|].
    assert (Ht : islower (char_at (String c rest) (S i)) = true).
    { unfold char_at. simpl. apply (char_at_all_of islower rest i Hrest). lia. }
    rewrite (islower_not_isupper _ Ht), andb_false_r. split; [reflexivity|].
    intros Hup. destruct i as [|i]; [reflexivity|].
    assert (Hp : islower (char_at (String c rest) (S (S i) - 1)) = true).
    { unfold char_at. simpl. apply (char_at_all_of islower rest i Hrest). lia. }
    rewrite (islower_not_isupper _ Hp) in Hup. discriminate.
Qed.

Lemma single_case_alpha : forall part,
  all_of islower part = true \/ all_of isupper part = true \/ capitalized part = true ->
  all_of isalpha part = true.
Proof.
  assert (Himp : forall (p : ascii -> bool), (forall c, p c = true -> isalpha c = true) ->
            forall s, all_of p s = true -> all_of isalpha s = true).
  { intros p Hp. induction s as [|c s IH]; [reflexivity|]. simpl. intros H.
    apply andb_true_iff in H as [Hc Hs]. now rewrite (Hp c Hc), IH. }
  assert (Hl : forall c, islower c = true -> isalpha c = true).
  { intros c H. unfold isalpha. now rewrite H. }
  assert (Hu : forall c, isupper c = true -> isalpha c = true).
  { intros c H. unfold isalpha. rewrite H. apply orb_true_r. }
  intros part [H|[H|H]].
  - now apply (Himp islower).
  - now apply (Himp isupper).
  - destruct part as [|c rest]; [discriminate|]. cbn [capitalized] in H.
    apply andb_true_iff in H as [Hc Hrest]. simpl.
    now rewrite (Hu c Hc), (Himp islower Hl rest Hrest).
Qed.

(** An identifier made of letters, without an inner boundary, is handed
    to [ret] in one piece. *)
Lemma split_whole_word : forall token,
  all_of isalpha token = true -> token <> EmptyString ->
  String.length token <= 256 ->
  (forall i, 1 <= i < String.length token -> quiet token i) ->
  _split token = snd (ret token (EmptyString, [])).
Proof.
  intros token Halpha Hne Hmax Hquiet.
  unfold _split, split_walk, strip.
  rewrite (lstrip_id token Halpha), (rstrip_id token Halpha).
  unfold take, MAX_TOKEN_LENGTH. rewrite substring_all by assumption.
  unfold re_split. rewrite (re_split_alpha token false "" Halpha).
  cbn [append fold_left].
  now rewrite split_part_whole.
Qed.

(** X4. An identifier of 3 to 256 letters that is all lowercase, all
    uppercase, or one capital followed by lowercase letters, is one token:
    itself in lowercase. *)
Theorem split_single_word : forall token,
  3 <= String.length token <= 256 ->
  all_of islower token = true \/ all_of isupper token = true \/ capitalized token = true ->
  _split token = [lower token].
Proof.
  intros token [Hmin Hmax] Hshape.
  pose proof (single_case_alpha token Hshape) as Halpha.
  assert (Hne : token <> EmptyString) by (destruct token; simpl in Hmin; [lia | discriminate]).
  rewrite (split_whole_word token Halpha Hne Hmax (single_case_quiet token Hshape)).
  rewrite ret_long by assumption. reflexivity.
Qed.

Lemma split_single_word_witness :
  _split "HTTP" = ["http"] /\ _split "Server" = ["server"] /\ _split "size" = ["size"].
Proof.
  split; [|split].
  - apply (split_single_word "HTTP"); [simpl; lia | right; left; reflexivity].
  - apply (split_single_word "Server"); [simpl; lia | right; right; reflexivity].
  - apply (split_single_word "size"); [simpl; lia | left; reflexivity].
Defined.

(** ** Whitespace around the identifier *)

Lemma lstrip_app_space : forall ws t,
  all_of isspace ws = true -> lstrip (ws ++ t) = lstrip t.
Proof.
  induction ws as [|c ws IH]; intros t H; [reflexivity|].
  simpl in H. apply andb_true_iff in H as [Hc Hws].
  simpl. rewrite Hc. now apply IH.
Qed.

Lemma rstrip_space : forall ws, all_of isspace ws = true -> rstrip ws = "".
Proof.
  induction ws as [|c ws IH]; intros H; [reflexivity|].
  simpl in H. apply andb_true_iff in H as [Hc Hws].
  cbn [rstrip]. now rewrite (IH Hws), Hc.
Qed.

Lemma rstrip_app_space : forall t ws,
  all_of isspace ws = true -> rstrip (t ++ ws) = rstrip t.
Proof.
  induction t as [|c t IH]; intros ws H.
  - simpl. now apply rstrip_space.
  - cbn [append rstrip]. now rewrite (IH ws H).
Qed.

Lemma strip_app_space : forall t ws,
  all_of isspace ws = true -> strip (t ++ ws) = strip t.
Proof.
  unfold strip. induction t as [|c t IH]; intros ws H.
  - cbn [append lstrip rstrip].
    assert (E : lstrip ws = "").
    { clear -H. induction ws as [|c ws IH]; [reflexivity|].
      simpl in H. apply andb_true_iff in H as [Hc Hws]. simpl. rewrite Hc. auto. }
    now rewrite E.
  - cbn [append lstrip]. destruct (isspace c); [now apply IH|].
    change (String c (t ++ ws)) with (String c t ++ ws)%string.
    now apply rstrip_app_space.
Qed.

(** X5. Whitespace before and after the identifier changes nothing; it does
    not count towards the 256 characters either. *)
Theorem split_ignores_surrounding_whitespace : forall ws1 token ws2,
  all_of isspace ws1 = true -> all_of isspace ws2 = true ->
  _split (ws1 ++ token ++ ws2) = _split token.
Proof.
  intros ws1 token ws2 H1 H2. unfold _split, split_walk.
  assert (E : strip (ws1 ++ token ++ ws2) = strip token).
  { rewrite <- (strip_app_space token ws2 H2). unfold strip.
    now rewrite lstrip_app_space. }
  now rewrite E.
Qed.

Lemma split_ignores_surrounding_whitespace_witness :
  _split (String "009" " " ++ "maxSize" ++ String "010" "") = _split "maxSize".
Proof.
  apply split_ignores_surrounding_whitespace; reflexivity.
Defined.

(** ** Splitting a token again *)

Lemma lower_of_lower : forall s, all_of islower s = true -> lower s = s.
Proof.
  induction s as [|c s IH]; intros H; [reflexivity|].
  simpl in H. apply andb_true_iff in H as [Hc Hs]. simpl.
  unfold lower_char. rewrite (islower_not_isupper c Hc). now rewrite IH.
Qed.

(** X6. [_split] is stable on what it yields: a token yielded for some
    identifier, given to [_split] as an identifier, yields that token and
    nothing else. *)
Theorem split_is_stable_on_tokens : forall token tok,
  In tok (_split token) -> _split tok = [tok].
Proof.
  intros token tok Hin. rewrite split_carry_forward in Hin.
  pose proof (carry_forward_shape (sub_words token) None (sub_words_alpha token)) as Hshape.
  rewrite Forall_forall in Hshape.
  destruct (Hshape ltac:(discriminate) tok Hin) as [Hmin Hlow].
  pose proof (carry_forward_length _ _ _ Hin) as Hmax. cbn in Hmax.
  rewrite sub_words_joined in Hmax.
  pose proof (letters_length (take MAX_TOKEN_LENGTH (strip token))) as H1.
  pose proof (substring_length_le (strip token) 0 MAX_TOKEN_LENGTH) as H2.
  unfold take, MAX_TOKEN_LENGTH in *.
  assert (Hne : tok <> EmptyString) by (destruct tok; simpl in Hmin; [lia | discriminate]).
  rewrite (split_whole_word tok).
  - rewrite ret_long by assumption. cbn. now rewrite lower_of_lower.
  - apply single_case_alpha. now left.
  - assumption.
  - lia.
  - apply single_case_quiet. now left.
Qed.

Lemma split_is_stable_on_tokens_witness : _split "asetting" = ["asetting"].
Proof.
  apply (split_is_stable_on_tokens "a_Setting" "asetting").
  vm_compute. right. left. reflexivity.
Defined.

(** ** Separators *)

(** The non-empty pieces, which are the ones [_split] looks at. *)
Definition pieces_from (in_run : bool) (cur : string) (s : string) : list string :=
  filter truthy (re_split_from in_run cur s).

Lemma pieces_in_run : forall s,
  pieces_from true "" s = pieces_from false "" s.
Proof.
  intros [|c s]; [reflexivity|]. unfold pieces_from. cbn [re_split_from].
  destruct (isalpha c); reflexivity.
Qed.

Lemma pieces_separator : forall x d y in_run cur,
  isalpha d = false -> (in_run = true -> cur = "") ->
  pieces_from in_run cur (x ++ String d y)
  = pieces_from in_run cur x ++ pieces_from false "" y.
Proof.
  unfold pieces_from.
  induction x as [|c x IH]; intros d y in_run cur Hd Hcur.
  - cbn [append re_split_from]. rewrite Hd.
    fold (pieces_from true "" y) (pieces_from false "" y).
    destruct in_run.
    + rewrite (Hcur eq_refl). cbn [filter truthy]. cbn. apply pieces_in_run.
    + cbn [filter]. fold (pieces_from true "" y). rewrite pieces_in_run.
      destruct (truthy cur); reflexivity.
  - cbn [append re_split_from]. destruct (isalpha c).
    + apply IH; [assumption | discriminate].
    + destruct in_run.
      * apply IH; assumption.
      * cbn [filter]. rewrite (IH d y true "" Hd (fun _ => eq_refl)).
        destruct (truthy cur); reflexivity.
Qed.

Lemma pieces_only_delimiters : forall s in_run,
  only_delimiters s = true -> pieces_from in_run "" s = [].
Proof.
  intros s in_run H. unfold pieces_from.
  pose proof (re_split_only_delimiters s in_run H) as Hall.
  induction Hall as [|part parts -> _ IH]; [reflexivity | exact IH].
Qed.

Lemma pieces_trailing : forall x ws in_run cur,
  only_delimiters ws = true -> (in_run = true -> cur = "") ->
  pieces_from in_run cur (x ++ ws) = pieces_from in_run cur x.
Proof.
  intros x [|d ws] in_run cur H Hcur.
  - now rewrite append_empty_r.
  - simpl in H. apply andb_true_iff in H as [Hd Hws]. apply negb_true_iff in Hd.
    rewrite pieces_separator by assumption.
    rewrite pieces_only_delimiters by assumption. apply app_nil_r.
Qed.

Lemma space_only_delimiters : forall ws,
  all_of isspace ws = true -> only_delimiters ws = true.
Proof.
  induction ws as [|c ws IH]; intros H; [reflexivity|].
  simpl in *. apply andb_true_iff in H as [Hc Hws].
  now rewrite (isspace_not_alpha c Hc), IH.
Qed.

Lemma pieces_lstrip : forall s, pieces_from false "" (lstrip s) = pieces_from false "" s.
Proof.
  induction s as [|c s IH]; [reflexivity|]. cbn [lstrip].
  destruct (isspace c) eqn:E; [|reflexivity].
  rewrite IH. unfold pieces_from at 2. cbn [re_split_from].
  rewrite (isspace_not_alpha c E). cbn [filter truthy]. cbn.
  symmetry. apply pieces_in_run.
Qed.

Lemma rstrip_decompose : forall s,
  exists ws, s = (rstrip s ++ ws)%string /\ all_of isspace ws = true.
Proof.
  induction s as [|c s (ws & Hs & Hws)]; [now exists ""|].
  cbn [rstrip]. destruct (rstrip s) as [|d r].
  - destruct (isspace c) eqn:E.
    + exists (String c ws). simpl in *. rewrite E, Hws. subst s. split; reflexivity.
    + exists ws. simpl in *. subst s. split; [reflexivity | assumption].
  - exists ws. split; [|assumption].
    change (String c s = String c (String d r ++ ws)%string). now rewrite <- Hs.
Qed.

Lemma pieces_rstrip : forall s, pieces_from false "" (rstrip s) = pieces_from false "" s.
Proof.
  intros s. destruct (rstrip_decompose s) as (ws & Hs & Hws).
  rewrite Hs at 2. symmetry. apply pieces_trailing; [|discriminate].
  now apply space_only_delimiters.
Qed.

Lemma pieces_strip : forall s, pieces_from false "" (strip s) = pieces_from false "" s.
Proof. intros. unfold strip. now rewrite pieces_rstrip, pieces_lstrip. Qed.

Lemma walk_skips_empty : forall {St} (h : string -> St -> St) parts s,
  fold_left (split_part h) parts s = fold_left (split_part h) (filter truthy parts) s.
Proof.
  intros St h. induction parts as [|part parts IH]; intros s; [reflexivity|].
  cbn [fold_left filter]. destruct (truthy part) eqn:E.
  - cbn [fold_left]. apply IH.
  - unfold split_part at 2. rewrite E. apply IH.
Qed.

Lemma walk_short : forall {St} (h : string -> St -> St) token s,
  String.length token <= 256 ->
  split_walk h token s = fold_left (split_part h) (pieces_from false "" token) s.
Proof.
  intros St h token s Hlen. unfold split_walk, take, MAX_TOKEN_LENGTH.
  pose proof (strip_length token).
  rewrite substring_all by lia.
  rewrite walk_skips_empty. unfold re_split.
  fold (pieces_from false "" (strip token)). now rewrite pieces_strip.
Qed.

Lemma walk_collect_from : forall parts tr,
  fold_left (split_part collect) parts tr
  = tr ++ fold_left (split_part collect) parts [].
Proof.
  intros parts tr.
  assert (E : forall l, replay collect l tr = tr ++ l).
  { intros l. revert tr. induction l as [|w l IH]; intros tr; cbn.
    - now rewrite app_nil_r.
    - unfold replay in IH. rewrite IH. unfold collect. now rewrite <- app_assoc. }
  assert (Hgen : forall l,
    fold_left (split_part collect) parts (replay collect l tr)
    = replay collect (fold_left (split_part collect) parts l) tr).
  { induction parts as [|part parts IH]; intros l; cbn [fold_left]; [reflexivity|].
    rewrite split_part_replay. apply IH. }
  specialize (Hgen []). change (replay collect [] tr) with tr in Hgen.
  rewrite Hgen. apply E.
Qed.

Lemma carry_forward_held : forall h words,
  Spec.carry_forward (Some h) words = Spec.carry_forward None words
  <-> match words with
      | [] => True
      | w :: _ => String.length w < 3
      end.
Proof.
  intros h [|w rest]; [split; reflexivity|].
  cbn [Spec.carry_forward]. destruct (3 <=? String.length w) eqn:Hlen.
  - apply Nat.leb_le in Hlen. split; [|lia].
    intros E. inversion E as [E']. apply (f_equal (@List.length string)) in E'.
    cbn [List.length] in E'. lia.
  - apply Nat.leb_gt in Hlen. split; [intros _; assumption | reflexivity].
Qed.

(** X7. A character that is not a letter cuts an identifier of at most 256
    characters in two halves whose sub-words are found independently.  The
    cell [prev_p] is not reset at the cut: the tokens are those of the
    one-slot rule run over both lists of sub-words in a row.  They are the
    tokens of the first half followed by those of the second half if and
    only if the first half leaves the cell empty, or the second half has no
    sub-word, or its first sub-word is shorter than 3 (it then replaces
    what is held). *)
Theorem split_at_separator : forall x d y,
  isalpha d = false ->
  String.length (x ++ String d y) <= 256 ->
  sub_words (x ++ String d y) = sub_words x ++ sub_words y
  /\ _split (x ++ String d y) = Spec.carry_forward None (sub_words x ++ sub_words y)
  /\ (_split (x ++ String d y) = _split x ++ _split y
      <-> fst (split_walk ret x (EmptyString, [])) = EmptyString
          \/ match sub_words y with
             | [] => True
             | w :: _ => String.length w < 3
             end).
Proof.
  intros x d y Hd Hlen.
  rewrite append_length in Hlen. simpl in Hlen.
  assert (Hsub : sub_words (x ++ String d y) = sub_words x ++ sub_words y).
  { unfold sub_words. rewrite !walk_short by (rewrite ?append_length; simpl; lia).
    rewrite pieces_separator by (try assumption; discriminate).
    rewrite fold_left_app. apply walk_collect_from. }
  split; [exact Hsub|]. split; [now rewrite split_carry_forward, Hsub|].
  assert (Hboth : _split (x ++ String d y)
                  = _split x
                    ++ Spec.carry_forward
                         (held_of (fst (split_walk ret x (EmptyString, []))))
                         (sub_words y)).
  { unfold _split. rewrite !split_walk_replay, Hsub.
    unfold replay at 1. rewrite fold_left_app.
    fold (replay ret (sub_words x) ("", [])).
    destruct (replay ret (sub_words x) ("", [])) as [cell out].
    fold (replay ret (sub_words y) (cell, out)).
    rewrite replay_ret by apply sub_words_nonempty. reflexivity. }
  rewrite Hboth, (split_carry_forward y).
  destruct (fst (split_walk ret x (EmptyString, []))) as [|c cell] eqn:Hcell.
  - split; [intros _; now left | reflexivity].
  - change (held_of (String c cell)) with (Some (String c cell)). split.
    + intros E. apply app_inv_head in E. right.
      now apply (carry_forward_held (String c cell) (sub_words y)).
    + intros [E|Hshort]; [discriminate|]. f_equal.
      now apply carry_forward_held.
Qed.

Lemma split_at_separator_witness :
  _split "max_size" = _split "max" ++ _split "size"
  /\ _split "a_b" = _split "a" ++ _split "b"
  /\ _split "x_offset" = Spec.carry_forward None (sub_words "x" ++ sub_words "offset").
Proof.
  destruct (split_at_separator "max" "_" "size" eq_refl) as (_ & _ & H1);
    [vm_compute; lia|].
  destruct (split_at_separator "a" "_" "b" eq_refl) as (_ & _ & H2);
    [vm_compute; lia|].
  destruct (split_at_separator "x" "_" "offset" eq_refl) as (_ & H3 & _);
    [vm_compute; lia|].
  split; [apply H1; left; reflexivity|].
  split; [apply H2; right; vm_compute; lia | exact H3].
Defined.

(** ** Truncation *)

Lemma rstrip_keeps_prefix : forall t extra,
  rstrip t = t -> exists rest, rstrip (t ++ extra) = (t ++ rest)%string.
Proof.
  induction t as [|c t IH]; intros extra H.
  - exists (rstrip extra). reflexivity.
  - cbn [rstrip] in H. cbn [append rstrip].
    destruct (rstrip t) as [|d r] eqn:Hr.
    + destruct (isspace c) eqn:E; [discriminate|].
      inversion H as [Ht]. subst t. cbn [append].
      destruct (rstrip extra) as [|e rest].
      * now exists "".
      * now exists (String e rest).
    + inversion H as [Ht]. destruct (IH extra Ht) as (rest & Hrest).
      rewrite <- Ht in Hrest. rewrite Hrest. exists rest. reflexivity.
Qed.

Lemma lstrip_keeps_prefix : forall t extra,
  t <> "" -> lstrip t = t -> lstrip (t ++ extra) = (t ++ extra)%string.
Proof.
  intros [|c t] extra Hne H; [congruence|].
  cbn [append lstrip] in *. destruct (isspace c); [|reflexivity].
  exfalso.
  assert (Hlen : String.length (lstrip t) <= String.length t).
  { clear. induction t as [|c t IH]; simpl; [lia|]. destruct (isspace c); simpl; lia. }
  rewrite H in Hlen. simpl in Hlen. lia.
Qed.

Lemma substring_prefix : forall t rest n,
  n <= String.length t -> substring 0 n (t ++ rest) = substring 0 n t.
Proof.
  induction t as [|c t IH]; intros rest n Hn.
  - simpl in Hn. assert (n = 0) by lia. subst. destruct rest; reflexivity.
  - destruct n as [|n]; [reflexivity|]. simpl in *. f_equal. apply IH. lia.
Qed.

(** X8. Only the first 256 characters of the stripped identifier are looked
    at: whatever follows them changes nothing. *)
Theorem split_reads_256_characters : forall t extra,
  strip t = t -> 256 <= String.length t ->
  _split (t ++ extra) = _split t.
Proof.
  intros t extra Hstrip Hlen.
  assert (Hne : t <> "") by (destruct t; simpl in Hlen; [lia | discriminate]).
  assert (Hl : lstrip t = t).
  { unfold strip in Hstrip.
    assert (Hll : String.length (lstrip t) <= String.length t).
    { clear. induction t as [|c t IH]; simpl; [lia|]. destruct (isspace c); simpl; lia. }
    destruct (rstrip_decompose (lstrip t)) as (ws & Hs & Hws).
    rewrite Hstrip in Hs.
    assert (Hz : String.length ws = 0).
    { apply (f_equal String.length) in Hs. rewrite append_length in Hs. lia. }
    destruct ws; [|discriminate]. now rewrite append_empty_r in Hs. }
  assert (Hr : rstrip t = t) by (unfold strip in Hstrip; now rewrite Hl in Hstrip).
  unfold _split, split_walk, strip.
  rewrite lstrip_keeps_prefix by assumption.
  destruct (rstrip_keeps_prefix t extra Hr) as (rest & Hrest).
  rewrite Hrest, Hl, Hr. unfold take, MAX_TOKEN_LENGTH.
  now rewrite substring_prefix.
Qed.

(** 64 times "getX", 256 characters. *)
Definition long_identifier : string := joined (repeat "getX"%string 64).

Lemma split_reads_256_characters_witness :
  _split (long_identifier ++ "_cut_away") = _split long_identifier.
Proof.
  apply split_reads_256_characters; vm_compute; [reflexivity | lia].
Defined.

(** ** Stemming all tokens *)

Lemma process_token_fold : forall stemWord words out calls,
  fold_left
    (fun '(out, calls) word =>
       let '(w, c) := _stem stemWord word in (out ++ [w], calls ++ c))
    words (out, calls)
  = (out ++ map (fun w => if String.length w <=? 6 then w else stemWord w) words,
     calls ++ filter (fun w => negb (String.length w <=? 6)) words).
Proof.
  intros stemWord. induction words as [|w words IH]; intros out calls.
  - cbn. now rewrite !app_nil_r.
  - cbn [fold_left map filter].
    assert (Hs : _stem stemWord w
                 = if String.length w <=? 6 then (w, []) else (stemWord w, [w]))
      by reflexivity.
    rewrite Hs. destruct (String.length w <=? 6); cbn [negb].
    + rewrite IH, app_nil_r, <- app_assoc. reflexivity.
    + rewrite IH, <- !app_assoc. reflexivity.
Qed.

(** X9. [_process_token] yields one word for each token of [_split], in
    order: the token itself up to 6 characters, its stem beyond; and the
    stemmer is called exactly once for each token longer than 6, in
    order. *)
Theorem process_token_stems_long_tokens : forall stemWord token,
  fst (_process_token stemWord token)
  = map (fun w => if String.length w <=? 6 then w else stemWord w) (_split token)
  /\ snd (_process_token stemWord token)
     = filter (fun w => negb (String.length w <=? 6)) (_split token)
  /\ List.length (fst (_process_token stemWord token)) = List.length (_split token).
Proof.
  intros stemWord token. unfold _process_token.
  rewrite process_token_fold. cbn [fst snd app].
  repeat split. now rewrite length_map.
Qed.

(** ** One task in a worker, continued *)

Section WorkerCases.
Variable UAST : Type.
Variable islink : string -> bool.
Variable readlink : string -> option string.
Variable stat_size : string -> option Z.
Variable parse_uast : nat -> string -> string -> reply UAST.

Local Abbreviation handle_task := (handle_task UAST islink readlink stat_size parse_uast).

(** [filename] after [if os.path.islink(filename): filename = os.readlink(filename)] *)
Definition resolved_name (filename : string) : option string :=
  if islink filename then readlink filename else Some filename.

(** The events of one iteration, case by case. *)
Definition task_trace (thread_index : nat) (t : task) : list (event UAST) :=
  match resolved_name (fst t) with
  | None => [LogError t; Put None]
  | Some resolved =>
      match stat_size resolved with
      | None => [LogError t; Put None]
      | Some size =>
          if (size >? 200000)%Z then [LogTooBig resolved size; Put None]
          else
            match parse_uast thread_index resolved (snd t) with
            | Tree u => [CallParse thread_index resolved (snd t); Put (Some u)]
            | NoTree =>
                [CallParse thread_index resolved (snd t); LogTimedOut resolved; Put None]
            | ParseRaises =>
                [CallParse thread_index resolved (snd t); LogError t; Put None]
            end
      end
  end.

Lemma handle_task_trace : forall thread_index t,
  handle_task thread_index t = (task_trace thread_index t, Some tt).
Proof.
  intros thread_index [filename language].
  unfold Pipeline.handle_task, task_trace, resolved_name, MAX_FILE_SIZE. cbn [fst snd].
  destruct (islink filename); [destruct (readlink filename) as [resolved|]|];
    cbn [lift bind pure raise try_except emit app];
    try reflexivity;
    match goal with
    | |- context [stat_size ?f] => destruct (stat_size f) as [size|]
    end;
    cbn [lift bind pure raise try_except emit app];
    try reflexivity;
    destruct (size >? 200000)%Z;
    cbn [lift bind pure raise try_except emit app];
    try reflexivity;
    unfold call_parse;
    match goal with
    | |- context [parse_uast ?i ?f ?l] => destruct (parse_uast i f l)
    end;
    cbn [lift bind pure raise try_except emit app];
    reflexivity.
Qed.

(** X10. Whatever the file system and the parser do with a task, the worker
    survives it: no exception leaves the iteration, exactly one outcome is
    put on the result queue, as the last thing done, and the parser is
    called at most once. *)
Theorem worker_survives_every_task : forall thread_index t,
  snd (handle_task thread_index t) = Some tt
  /\ (exists before outcome,
        fst (handle_task thread_index t) = before ++ [Put outcome]
        /\ puts before = [])
  /\ List.length (parse_calls (fst (handle_task thread_index t))) <= 1.
Proof.
  intros thread_index t. rewrite handle_task_trace. cbn [fst snd].
  split; [reflexivity|]. unfold task_trace.
  destruct (resolved_name (fst t)) as [resolved|].
  2:{ split; [now exists [LogError t], None | cbn; lia]. }
  destruct (stat_size resolved) as [size|].
  2:{ split; [now exists [LogError t], None | cbn; lia]. }
  destruct (size >? 200000)%Z.
  { split; [now exists [LogTooBig resolved size], None | cbn; lia]. }
  destruct (parse_uast thread_index resolved (snd t)) as [u| |].
  - split; [now exists [CallParse thread_index resolved (snd t)], (Some u) | cbn; lia].
  - split; [|cbn; lia].
    now exists [CallParse thread_index resolved (snd t); LogTimedOut resolved], None.
  - split; [|cbn; lia].
    now exists [CallParse thread_index resolved (snd t); LogError t], None.
Qed.

(** X11. A worker puts a tree on the result queue exactly when the file, after
    a symbolic link has been replaced by its target, could be measured, has
    at most 200000 bytes (the bound itself is accepted), and the parser
    returned that tree; the parser is then called once, with the worker's
    own index, the resolved name and the language of the task. *)
Theorem worker_puts_what_the_parser_returns : forall thread_index filename language u,
  let trace := fst (handle_task thread_index (filename, language)) in
  (puts trace = [Some u]
   <-> exists resolved size,
         resolved_name filename = Some resolved
         /\ stat_size resolved = Some size
         /\ (size <= 200000)%Z
         /\ parse_uast thread_index resolved language = Tree u)
  /\ (puts trace = [Some u] ->
      exists resolved,
        resolved_name filename = Some resolved
        /\ parse_calls trace = [(thread_index, resolved, language)]).
Proof.
  intros thread_index filename language u trace. subst trace.
  rewrite handle_task_trace. cbn [fst]. unfold task_trace. cbn [fst snd].
  destruct (resolved_name filename) as [resolved|].
  2:{ split; [split|]; cbn; try discriminate. intros (r & s & H & _). discriminate. }
  destruct (stat_size resolved) as [size|] eqn:Hstat.
  2:{ split; [split|]; cbn; try discriminate.
      intros (r & s & Hr & Hs & _). inversion Hr; subst. congruence. }
  destruct (size >? 200000)%Z eqn:Hbig.
  { split; [split|]; cbn; try discriminate.
    intros (r & s & Hr & Hs & Hle & _). inversion Hr; subst.
    rewrite Hstat in Hs. inversion Hs; subst. apply Z.gtb_lt in Hbig. lia. }
  assert (Hle : (size <= 200000)%Z).
  { destruct (Z.gtb_spec size 200000); [discriminate | assumption]. }
  destruct (parse_uast thread_index resolved language) as [v| |] eqn:Hparse.
  - split; [split|]; cbn.
    + intros E. inversion E; subst. now exists resolved, size.
    + intros (r & s & Hr & _ & _ & Hp). inversion Hr; subst.
      rewrite Hparse in Hp. now inversion Hp.
    + intros _. now exists resolved.
  - split; [split|]; cbn; try discriminate.
    intros (r & s & Hr & _ & _ & Hp). inversion Hr; subst. congruence.
  - split; [split|]; cbn; try discriminate.
    intros (r & s & Hr & _ & _ & Hp). inversion Hr; subst. congruence.
Qed.


End WorkerCases.

Lemma worker_puts_what_the_parser_returns_witness :
  puts (fst (handle_task (nat * string) (fun f => String.eqb f "/repo/link.py")
               (fun _ => Some "real.py"%string) (fun _ => Some 200000%Z)
               (fun i f _ => Tree (i, f)) 3 ("/repo/link.py", "Python")))
  = [Some (3, "real.py"%string)].
Proof.
  apply (worker_puts_what_the_parser_returns (nat * string)
           (fun f => String.eqb f "/repo/link.py") (fun _ => Some "real.py"%string)
           (fun _ => Some 200000%Z) (fun i f _ => Tree (i, f)) 3 "/repo/link.py" "Python").
  exists "real.py"%string, 200000%Z.
  split; [reflexivity|]. split; [reflexivity|]. split; [lia | reflexivity].
Defined.


(** ** The pool and the collector together, continued *)

(** The trees among outcomes. *)
Definition trees {UAST : Type} (l : list (option UAST)) : list UAST :=
  flat_map (fun o => match o with Some u => [u] | None => [] end) l.

(** The tasks waiting on [queue_in]. *)
Definition queued (q : list (option task)) : list task :=
  flat_map (fun x => match x with Some t => [t] | None => [] end) q.

(** The tasks being processed. *)
Definition working (p : list worker) : list task :=
  flat_map (fun w => match w with Busy t => [t] | _ => [] end) p.

(** The tasks the dispatch loops have not put yet. *)
Definition todo_of (ph : phase) : list task :=
  match ph with
  | Dispatching todo => todo
  | _ => []
  end.

Definition before_loop (ph : phase) : Prop :=
  match ph with
  | Dispatching _ | Signalling _ => True
  | _ => False
  end.

Definition dispatch_done (ph : phase) : Prop :=
  match ph with
  | Dispatching _ => False
  | _ => True
  end.

Lemma trees_app : forall {UAST} (l1 l2 : list (option UAST)),
  trees (l1 ++ l2) = trees l1 ++ trees l2.
Proof. intros. apply flat_map_app. Qed.

Lemma queued_app : forall q1 q2, queued (q1 ++ q2) = queued q1 ++ queued q2.
Proof. intros. apply flat_map_app. Qed.

Lemma working_split : forall p1 w p2,
  working (p1 ++ w :: p2) = working p1 ++ working [w] ++ working p2.
Proof.
  intros. unfold working. rewrite flat_map_app. cbn [flat_map].
  now rewrite app_nil_r.
Qed.

Lemma empty_queue : forall q : list (option task),
  queued_tasks q = 0 -> queued_sentinels q = 0 -> q = [].
Proof.
  intros [|[t|] q] Ht Hs; [reflexivity | |].
  - rewrite queued_tasks_cons in Ht. cbn [is_task] in Ht. lia.
  - rewrite queued_sentinels_cons in Hs. cbn [is_sentinel] in Hs. lia.
Qed.

Lemma working_exited : forall p,
  Forall (fun w => w = Exited) p -> working p = [].
Proof. induction 1 as [|w p -> _ IH]; [reflexivity | exact IH]. Qed.

Lemma exited_all : forall p,
  Forall (fun w => w = Exited) p ->
  exited_count p = List.length p /\ busy_count p = 0.
Proof.
  induction 1 as [|w p -> _ [IH1 IH2]]; [split; reflexivity|].
  change (exited_count (Exited :: p)) with (1 + exited_count p).
  change (busy_count (Exited :: p)) with (0 + busy_count p).
  cbn [List.length]. lia.
Qed.

Lemma no_worker_left : forall p1 w p2,
  Forall (fun w => w = Exited) (p1 ++ w :: p2) -> w = Exited.
Proof.
  intros p1 w p2 H. apply Forall_app in H as [_ H]. now inversion H.
Qed.

Lemma countdown_next : forall n rc,
  0 < n -> rev (seq (n - 1) (rc + 1)) = rev (seq n rc) ++ [n - 1].
Proof.
  intros n rc Hn. rewrite Nat.add_1_r. cbn [seq rev].
  now replace (S (n - 1)) with n by lia.
Qed.

Section Bookkeeping.
Variable UAST : Type.
Variable islink : string -> bool.
Variable readlink : string -> option string.
Variable stat_size : string -> option Z.
Variable parse_uast : nat -> string -> string -> reply UAST.

Local Abbreviation step := (step UAST islink readlink stat_size parse_uast).
Local Abbreviation steps := (steps UAST islink readlink stat_size parse_uast).
Local Abbreviation invariant := (invariant UAST).

(** What the collector has logged and counted, in every state of a run
    with [n] dispatched tasks. *)
Record bookkeeping (n : nat) (s : state UAST) : Prop := {
  book_before : before_loop (at_phase s) -> received s = 0;
  book_interval : dispatch_done (at_phase s) -> report_interval s = Nat.max 1 (n / 100);
  book_progress :
    progress s
    = filter (fun k => k mod report_interval s =? 0) (rev (seq (tasks s) (received s)));
  book_finished : at_phase s = Finished -> Forall (fun w => w = Exited) (pool s)
}.

Lemma bookkeeping_start : forall ncpu target_dir classified n,
  bookkeeping n (start UAST ncpu target_dir classified).
Proof.
  intros. constructor; unfold start; cbn; try reflexivity; try discriminate.
  intros [].
Qed.

Ltac book_fields :=
  constructor;
  cbn [pool tasks received at_phase queue_in queue_out yielded progress
       report_interval before_loop dispatch_done];
  try (intros; discriminate); try tauto.

Lemma bookkeeping_step : forall npool n s s',
  invariant npool n s -> bookkeeping n s -> step s s' -> bookkeeping n s'.
Proof.
  intros npool n s s' [Hpool Hcount _ _ _ _ _ _] [Hbefore Hint Hprog Hfin] Hstep.
  destruct Hstep;
    cbn [pool tasks received at_phase queue_in queue_out yielded progress
         report_interval before_loop dispatch_done pending_tasks List.length] in *.
  - (* a task is put *)
    book_fields. rewrite Hprog, (Hbefore I). reflexivity.
  - (* the interval is computed *)
    specialize (Hbefore I). book_fields.
    + intros _. assert (E : n0 = n) by lia. now rewrite E.
    + rewrite Hprog, Hbefore. reflexivity.
  - (* a sentinel is put *)
    book_fields.
  - (* the loop is entered *)
    book_fields.
  - (* a result is read *)
    book_fields.
    unfold report. rewrite countdown_next by assumption.
    rewrite filter_app, <- Hprog. cbn [filter].
    destruct ((n0 - 1) mod ri =? 0); [reflexivity | now rewrite app_nil_r].
  - (* the loop is left *)
    book_fields.
  - (* the pool is joined *)
    book_fields.
  - (* a worker takes a task *)
    book_fields.
    intros E. apply Hfin, no_worker_left in E. discriminate.
  - (* a worker takes a sentinel *)
    book_fields.
    intros E. apply Hfin, no_worker_left in E. discriminate.
  - (* a worker has processed its task *)
    book_fields.
    intros E. apply Hfin, no_worker_left in E. discriminate.
Qed.

Lemma steps_bookkeeping : forall ncpu target_dir classified s,
  steps (start UAST ncpu target_dir classified) s ->
  invariant ncpu (List.length (PipelineSpec.allow_listed_files classified)) s
  /\ bookkeeping (List.length (PipelineSpec.allow_listed_files classified)) s.
Proof.
  intros ncpu target_dir classified s Hrun.
  remember (start UAST ncpu target_dir classified) as s0 eqn:Hs0.
  induction Hrun as [|s1 s2 s3 _ IH Hstep].
  - subst. split; [apply invariant_start | apply bookkeeping_start].
  - destruct (IH Hs0) as [IH1 IH2]. split.
    + eapply invariant_step; eassumption.
    + eapply bookkeeping_step; eassumption.
Qed.

(** X13. The progress report never divides by zero, and the log is a
    countdown: once the tasks are dispatched the interval is
    [max(1, n // 100)]; at any time the messages logged are the multiples
    of the interval among the pending counts [n-1], [n-2], ... down to the
    current one, in that order; at the end they go down to 0, and with
    fewer than 200 tasks every count from [n-1] to 0 is logged. *)
Theorem progress_log_counts_down : forall ncpu target_dir classified s,
  steps (start UAST ncpu target_dir classified) s ->
  let n := List.length (PipelineSpec.allow_listed_files classified) in
  (dispatch_done (at_phase s) ->
   report_interval s = Nat.max 1 (n / 100) /\ 1 <= report_interval s)
  /\ progress s
     = filter (fun k => k mod report_interval s =? 0) (rev (seq (tasks s) (received s)))
  /\ (at_phase s = Finished ->
      progress s = filter (fun k => k mod Nat.max 1 (n / 100) =? 0) (rev (seq 0 n)))
  /\ (at_phase s = Finished -> n < 200 -> progress s = rev (seq 0 n)).
Proof.
  intros ncpu target_dir classified s Hrun n.
  destruct (steps_bookkeeping _ _ _ _ Hrun) as [Hinv Hbook]. fold n in Hinv, Hbook.
  destruct Hbook as [Hbefore Hint Hprog Hfin].
  destruct Hinv as [_ Hcount _ _ _ _ _ Hloop].
  assert (Hend : at_phase s = Finished ->
            progress s = filter (fun k => k mod Nat.max 1 (n / 100) =? 0) (rev (seq 0 n))).
  { intros E. rewrite Hprog. rewrite E in *. cbn in Hint, Hloop, Hcount.
    rewrite (Hint I), (Hloop I) in *. do 3 f_equal. lia. }
  split; [intros Hph; rewrite (Hint Hph); split; [reflexivity | lia]|].
  split; [exact Hprog|]. split; [exact Hend|].
  intros E Hsmall. rewrite (Hend E).
  assert (Hone : Nat.max 1 (n / 100) = 1).
  { assert (n / 100 < 2) by (apply Nat.Div0.div_lt_upper_bound; lia). lia. }
  rewrite Hone. apply forallb_filter_id. apply forallb_forall.
  intros k _. now rewrite Nat.mod_1_r.
Qed.

(** X14. The sentinels shut the pool down in order.  A worker leaves its loop
    only when the dispatch loops are over and no task is left on the
    input queue.  When the generator is exhausted every worker has left,
    both queues are empty, all [n] outcomes have been read, and nothing
    more happens. *)
Theorem pool_shuts_down_cleanly : forall ncpu target_dir classified s,
  steps (start UAST ncpu target_dir classified) s ->
  (0 < exited_count (pool s) ->
   dispatch_done (at_phase s) /\ queued_tasks (queue_in s) = 0)
  /\ (at_phase s = Finished ->
      Forall (fun w => w = Exited) (pool s)
      /\ queue_in s = [] /\ queue_out s = []
      /\ received s = List.length (PipelineSpec.allow_listed_files classified)
      /\ forall s', ~ step s s').
Proof.
  intros ncpu target_dir classified s Hrun.
  destruct (steps_bookkeeping _ _ _ _ Hrun) as [Hinv Hbook].
  destruct Hbook as [_ _ _ Hfin].
  destruct Hinv as [Hpool Hcount Hflow Hsent _ _ Halive Hloop].
  split.
  - intros Hex. split; [|now apply Halive].
    destruct (at_phase s); cbn in *; [lia | exact I..].
  - intros E. specialize (Hfin E). destruct (exited_all _ Hfin) as [Hall Hbusy].
    rewrite E in *. cbn in Hcount, Hsent, Hloop. specialize (Hloop I).
    assert (Hqi : queue_in s = []) by (apply empty_queue; lia).
    assert (Hqo : queue_out s = []).
    { destruct (queue_out s); [reflexivity | cbn in Hflow; lia]. }
    split; [assumption|]. split; [assumption|]. split; [assumption|].
    split; [lia|].
    intros s' Hstep. destruct Hstep; cbn in *; try discriminate;
      apply no_worker_left in Hfin; discriminate.
Qed.

End Bookkeeping.

Lemma progress_log_counts_down_witness :
  exists s,
    steps unit (fun _ => false) (fun _ => None) (fun _ => Some 10%Z)
      (fun _ _ _ => Tree tt)
      (start unit 2 "/repo" [("Python", ["a.py"; "b.py"; "c.py"])]) s
    /\ progress s = [2; 1; 0].
Proof.
  destruct (run_finishes unit (fun _ => false) (fun _ => None) (fun _ => Some 10%Z)
              (fun _ _ _ => Tree tt) 2 3
              (start unit 2 "/repo" [("Python", ["a.py"; "b.py"; "c.py"])]))
    as (s & Hrun & Hfin);
    [exact (invariant_start unit 2 "/repo" [("Python", ["a.py"; "b.py"; "c.py"])]) | lia |].
  exists s. split; [exact Hrun|].
  destruct (progress_log_counts_down unit (fun _ => false) (fun _ => None)
              (fun _ => Some 10%Z) (fun _ _ _ => Tree tt) 2 "/repo"
              [("Python", ["a.py"; "b.py"; "c.py"])] s Hrun) as (_ & _ & _ & Hall).
  apply Hall; [exact Hfin | cbn; lia].
Defined.

Lemma pool_shuts_down_cleanly_witness :
  exists s,
    steps unit (fun _ => false) (fun _ => None) (fun _ => Some 10%Z)
      (fun _ _ _ => Tree tt)
      (start unit 2 "/repo" [("Python", ["a.py"; "b.py"; "c.py"])]) s
    /\ queue_in s = [] /\ queue_out s = [] /\ received s = 3.
Proof.
  destruct (run_finishes unit (fun _ => false) (fun _ => None) (fun _ => Some 10%Z)
              (fun _ _ _ => Tree tt) 2 3
              (start unit 2 "/repo" [("Python", ["a.py"; "b.py"; "c.py"])]))
    as (s & Hrun & Hfin);
    [exact (invariant_start unit 2 "/repo" [("Python", ["a.py"; "b.py"; "c.py"])]) | lia |].
  exists s. split; [exact Hrun|].
  destruct (pool_shuts_down_cleanly unit (fun _ => false) (fun _ => None)
              (fun _ => Some 10%Z) (fun _ _ _ => Tree tt) 2 "/repo"
              [("Python", ["a.py"; "b.py"; "c.py"])] s Hrun) as (_ & Hend).
  destruct (Hend Hfin) as (_ & Hqi & Hqo & Hrc & _).
  split; [exact Hqi|]. split; [exact Hqo | exact Hrc].
Defined.

(** ** What the generator yields *)

Section Yields.
Variable UAST : Type.
Variable islink : string -> bool.
Variable readlink : string -> option string.
Variable stat_size : string -> option Z.
Variable parse_uast : nat -> string -> string -> reply UAST.

Local Abbreviation handle_task := (handle_task UAST islink readlink stat_size parse_uast).
Local Abbreviation step := (step UAST islink readlink stat_size parse_uast).
Local Abbreviation steps := (steps UAST islink readlink stat_size parse_uast).

(** The tree, if any, that worker [thread_index] puts for task [t]. *)
Definition yield_of (thread_index : nat) (t : task) : list UAST :=
  trees (puts (fst (handle_task thread_index t))).

(** The trees yielded, on their way, and still to come if worker 0 were
    to process every remaining task. *)
Definition content (s : state UAST) : list UAST :=
  yielded s ++ trees (queue_out s)
  ++ flat_map (yield_of 0)
       (working (pool s) ++ queued (queue_in s) ++ todo_of (at_phase s)).

Lemma yield_result_trees : forall ys (result : option UAST),
  yield_result UAST ys result = ys ++ trees [result].
Proof. intros ys [u|]; cbn; [reflexivity | now rewrite app_nil_r]. Qed.

Lemma content_start : forall ncpu target_dir classified,
  content (start UAST ncpu target_dir classified)
  = flat_map (yield_of 0) (snd (dispatch target_dir classified)).
Proof.
  intros. unfold content, start. cbn [yielded queue_out pool queue_in at_phase todo_of].
  assert (E : working (repeat Idle ncpu) = []).
  { induction ncpu as [|k IH]; [reflexivity | exact IH]. }
  rewrite E. reflexivity.
Qed.

Lemma content_step : forall s s',
  (forall i j f l, parse_uast i f l = parse_uast j f l) ->
  step s s' -> Permutation (content s') (content s).
Proof.
  intros s s' Hindep Hstep.
  assert (Hy : forall i t, yield_of i t = yield_of 0 t).
  { intros i t. unfold yield_of.
    rewrite !(handle_task_trace UAST islink readlink stat_size parse_uast).
    cbn [fst]. unfold task_trace.
    destruct (resolved_name islink readlink (fst t)) as [r|]; [|reflexivity].
    destruct (stat_size r) as [size|]; [|reflexivity].
    destruct (size >? 200000)%Z; [reflexivity|].
    rewrite (Hindep i 0).
    destruct (parse_uast 0 r (snd t)); reflexivity. }
  destruct Hstep; unfold content;
    cbn [yielded queue_out pool queue_in at_phase todo_of];
    rewrite ?working_split, ?queued_app, ?trees_app, ?yield_result_trees, ?flat_map_app,
      <- ?app_assoc;
    cbn [working queued trees flat_map app];
    rewrite ?app_nil_r; try reflexivity.
  - (* a result is read *)
    unfold trees. rewrite <- !app_assoc. reflexivity.
  - (* a worker takes a task *)
    unfold queued. rewrite <- !app_assoc.
    do 3 apply Permutation_app_head. apply Permutation_app_swap_app.
  - (* a worker has processed its task *)
    fold (yield_of (List.length p1) t). rewrite Hy.
    do 2 apply Permutation_app_head. apply Permutation_app_swap_app.
Qed.

Lemma content_steps : forall s s',
  (forall i j f l, parse_uast i f l = parse_uast j f l) ->
  steps s s' -> Permutation (content s') (content s).
Proof.
  intros s s' Hindep Hrun. induction Hrun as [|s1 s2 s3 _ IH Hstep]; [reflexivity|].
  etransitivity; [apply content_step; eassumption | exact IH].
Qed.

Lemma finished_drained : forall ncpu target_dir classified s,
  steps (start UAST ncpu target_dir classified) s -> at_phase s = Finished ->
  working (pool s) = [] /\ queue_in s = [] /\ queue_out s = [].
Proof.
  intros ncpu target_dir classified s Hrun E.
  destruct (steps_bookkeeping UAST islink readlink stat_size parse_uast _ _ _ _ Hrun)
    as [Hinv Hbook].
  destruct Hbook as [_ _ _ Hfin].
  destruct Hinv as [Hpool Hcount Hflow Hsent _ _ Halive Hloop].
  specialize (Hfin E). destruct (exited_all _ Hfin) as [Hall Hbusy].
  rewrite E in *. cbn in Hcount, Hsent, Hloop. specialize (Hloop I).
  split; [now apply working_exited|].
  split; [apply empty_queue; lia|].
  destruct (queue_out s); [reflexivity | cbn in Hflow; lia].
Qed.

Lemma content_finished : forall ncpu target_dir classified s,
  steps (start UAST ncpu target_dir classified) s -> at_phase s = Finished ->
  content s = yielded s.
Proof.
  intros ncpu target_dir classified s Hrun E.
  destruct (finished_drained _ _ _ _ Hrun E) as (Hw & Hqi & Hqo).
  unfold content. rewrite Hw, Hqi, Hqo, E. cbn. apply app_nil_r.
Qed.

(** X15. When the clients are interchangeable (the parser answers the same
    whichever client is asked), the generator yields each tree the parser
    returns for a dispatched file exactly once, in some order: at any
    time what has been yielded is part of these trees, and when the
    generator is exhausted it is all of them.  With at least one worker
    the generator does get exhausted. *)
Theorem generator_yields_every_parsed_tree_once : forall ncpu target_dir classified,
  (forall i j f l, parse_uast i f l = parse_uast j f l) ->
  let expected := flat_map (yield_of 0) (snd (dispatch target_dir classified)) in
  (forall s, steps (start UAST ncpu target_dir classified) s ->
     exists rest, Permutation (yielded s ++ rest) expected)
  /\ (forall s, steps (start UAST ncpu target_dir classified) s ->
        at_phase s = Finished -> Permutation (yielded s) expected)
  /\ (0 < ncpu ->
      exists s, steps (start UAST ncpu target_dir classified) s /\ at_phase s = Finished).
Proof.
  intros ncpu target_dir classified Hindep expected.
  assert (Hperm : forall s, steps (start UAST ncpu target_dir classified) s ->
            Permutation (content s) expected).
  { intros s Hrun. subst expected. rewrite <- content_start with (ncpu := ncpu).
    now apply content_steps. }
  split; [|split].
  - intros s Hrun. eexists. apply (Hperm s Hrun).
  - intros s Hrun E. rewrite <- (content_finished _ _ _ _ Hrun E). now apply Hperm.
  - intros Hcpu.
    apply (run_finishes UAST islink readlink stat_size parse_uast ncpu
             (List.length (PipelineSpec.allow_listed_files classified)));
      [apply invariant_start | exact Hcpu].
Qed.

Lemma single_worker : forall (p1 : list worker) w p2,
  List.length (p1 ++ w :: p2) = 1 -> p1 = [] /\ p2 = [].
Proof.
  intros p1 w p2 H. rewrite length_app in H. cbn in H.
  destruct p1; [|cbn in H; lia]. destruct p2; [|cbn in H; lia]. auto.
Qed.

Lemma pool_size_steps : forall s s',
  steps s s' -> List.length (pool s') = List.length (pool s).
Proof.
  intros s s' Hrun. induction Hrun as [|s1 s2 s3 _ IH Hstep]; [reflexivity|].
  rewrite <- IH. destruct Hstep; cbn [pool]; rewrite ?length_app; reflexivity.
Qed.

Lemma content_step_single : forall s s',
  List.length (pool s) = 1 -> step s s' -> content s' = content s.
Proof.
  intros s s' Hone Hstep.
  destruct Hstep; cbn [pool] in Hone;
    try (apply single_worker in Hone as [-> ->]);
    unfold content;
    cbn [yielded queue_out pool queue_in at_phase todo_of List.length];
    rewrite ?queued_app, ?trees_app, ?yield_result_trees, ?flat_map_app, <- ?app_assoc;
    cbn [working queued trees flat_map app];
    rewrite ?app_nil_r; try reflexivity;
    unfold trees, queued; rewrite <- !app_assoc; reflexivity.
Qed.

Lemma content_single : forall target_dir classified s,
  steps (start UAST 1 target_dir classified) s ->
  content s = flat_map (yield_of 0) (snd (dispatch target_dir classified)).
Proof.
  intros target_dir classified s Hrun.
  rewrite <- content_start with (ncpu := 1).
  remember (start UAST 1 target_dir classified) as s0 eqn:Hs0.
  assert (Hlen : List.length (pool s0) = 1) by (subst; reflexivity).
  clear Hs0. induction Hrun as [|s1 s2 s3 Hrun IH Hstep]; [reflexivity|].
  rewrite <- (IH Hlen). apply content_step_single; [|assumption].
  now rewrite (pool_size_steps _ _ Hrun).
Qed.

(** X16. With a single worker the trees are yielded in the order in which the
    files were dispatched: at any time what has been yielded is a prefix
    of the trees the parser returns for the dispatched files, and at the
    end it is all of them. *)
Theorem single_worker_yields_in_dispatch_order : forall target_dir classified s,
  steps (start UAST 1 target_dir classified) s ->
  let expected := flat_map (yield_of 0) (snd (dispatch target_dir classified)) in
  (exists rest, yielded s ++ rest = expected)
  /\ (at_phase s = Finished -> yielded s = expected).
Proof.
  intros target_dir classified s Hrun expected.
  pose proof (content_single _ _ _ Hrun) as Hcontent. fold expected in Hcontent.
  split.
  - eexists. exact Hcontent.
  - intros E. now rewrite <- (content_finished _ _ _ _ Hrun E).
Qed.

(** Where a yielded tree comes from. *)
Definition produced (ncpu : nat) (dispatched : list task) (u : UAST) : Prop :=
  exists i t,
    i < ncpu /\ In t dispatched /\ puts (fst (handle_task i t)) = [Some u].

Record provenance (ncpu : nat) (dispatched : list task) (s : state UAST) : Prop := {
  prov_pool : List.length (pool s) = ncpu;
  prov_yielded : forall u, In u (yielded s) -> produced ncpu dispatched u;
  prov_out : forall u, In (Some u) (queue_out s) -> produced ncpu dispatched u;
  prov_in : forall t, In (Some t) (queue_in s) -> In t dispatched;
  prov_busy : forall t, In (Busy t) (pool s) -> In t dispatched;
  prov_todo : forall t, In t (todo_of (at_phase s)) -> In t dispatched
}.

Lemma provenance_step : forall ncpu dispatched s s',
  provenance ncpu dispatched s -> step s s' -> provenance ncpu dispatched s'.
Proof.
  intros ncpu dispatched s s' [Hpool Hys Hqo Hqi Hbusy Htodo] Hstep.
  destruct Hstep;
    cbn [pool yielded queue_out queue_in at_phase todo_of] in *;
    constructor; cbn [pool yielded queue_out queue_in at_phase todo_of];
    try assumption; try (intros ? []);
    rewrite ?length_app in *; cbn [List.length] in *; try assumption.
  - (* a task is put *)
    intros t' Hin. apply in_app_iff in Hin as [Hin|[E|[]]]; [now apply Hqi|].
    inversion E; subst. apply Htodo. now left.
  - intros t' Hin. apply Htodo. now right.
  - (* a sentinel is put *)
    intros t' Hin. apply in_app_iff in Hin as [Hin|[E|[]]]; [now apply Hqi | discriminate].
  - (* a result is read *)
    intros u Hin. destruct result as [v|]; cbn in Hin; [|now apply Hys].
    apply in_app_iff in Hin as [Hin|[<-|[]]]; [now apply Hys|].
    apply Hqo. now left.
  - intros u Hin. apply Hqo. now right.
  - (* a worker takes a task *)
    intros t' Hin. apply Hqi. now right.
  - intros t' Hin. apply in_app_iff in Hin as [Hin|[E|Hin]].
    + apply Hbusy, in_app_iff. now left.
    + inversion E; subst. apply Hqi. now left.
    + apply Hbusy, in_app_iff. right. now right.
  - (* a worker takes a sentinel *)
    intros t' Hin. apply Hqi. now right.
  - intros t' Hin. apply in_app_iff in Hin as [Hin|[E|Hin]]; [|discriminate|].
    + apply Hbusy, in_app_iff. now left.
    + apply Hbusy, in_app_iff. right. now right.
  - (* a worker has processed its task *)
    intros u Hin. apply in_app_iff in Hin as [Hin|Hin]; [now apply Hqo|].
    destruct (handle_task_puts_once UAST islink readlink stat_size parse_uast
                (List.length p1) t) as [outcome Hput].
    rewrite Hput in Hin. destruct Hin as [->|[]].
    exists (List.length p1), t. split; [lia|]. split; [|assumption].
    apply Hbusy, in_app_iff. right. now left.
  - intros t' Hin. apply in_app_iff in Hin as [Hin|[E|Hin]]; [|discriminate|].
    + apply Hbusy, in_app_iff. now left.
    + apply Hbusy, in_app_iff. right. now right.
Qed.

Lemma steps_provenance : forall ncpu target_dir classified s,
  steps (start UAST ncpu target_dir classified) s ->
  provenance ncpu (snd (dispatch target_dir classified)) s.
Proof.
  intros ncpu target_dir classified s Hrun.
  remember (start UAST ncpu target_dir classified) as s0 eqn:Hs0.
  induction Hrun as [|s1 s2 s3 _ IH Hstep].
  - subst. constructor; unfold start;
      cbn [pool yielded queue_out queue_in at_phase todo_of];
      try (intros ? []); try tauto.
    + apply repeat_length.
    + intros t Ht. apply repeat_spec in Ht. discriminate.
  - eapply provenance_step; [apply IH; assumption | eassumption].
Qed.

(** X17. Every tree the generator yields was returned by the parser: by the
    client of some worker of the pool (its index is below the number of
    CPUs, hence that of a client which exists), for the file of a
    dispatched task after resolution of a symbolic link, of at most 200000
    bytes, with the language of that task. *)
Theorem yielded_trees_come_from_the_parser : forall ncpu target_dir classified s u,
  steps (start UAST ncpu target_dir classified) s ->
  In u (yielded s) ->
  exists thread_index filename language resolved size,
    thread_index < ncpu
    /\ In (filename, language) (snd (dispatch target_dir classified))
    /\ resolved_name islink readlink filename = Some resolved
    /\ stat_size resolved = Some size /\ (size <= 200000)%Z
    /\ parse_uast thread_index resolved language = Tree u.
Proof.
  intros ncpu target_dir classified s u Hrun Hin.
  pose proof (steps_provenance _ _ _ _ Hrun) as Hprov.
  destruct (prov_yielded _ _ _ Hprov u Hin) as (i & [filename language] & Hi & Ht & Hput).
  rewrite (handle_task_trace UAST islink readlink stat_size parse_uast) in Hput.
  cbn [fst] in Hput. unfold task_trace in Hput. cbn [fst snd] in Hput.
  destruct (resolved_name islink readlink filename) as [resolved|] eqn:Hres;
    [|discriminate].
  destruct (stat_size resolved) as [size|] eqn:Hstat; [|discriminate].
  destruct (size >? 200000)%Z eqn:Hbig; [discriminate|].
  destruct (parse_uast i resolved language) as [v| |] eqn:Hparse; try discriminate.
  inversion Hput; subst v.
  exists i, filename, language, resolved, size.
  repeat split; try assumption.
  destruct (Z.gtb_spec size 200000); [discriminate | assumption].
Qed.

End Yields.

(** A file system without links where every file has 10 bytes, and a
    parser that returns the name of the file as its tree. *)
Definition plain_files : string -> bool := fun _ => false.
Definition no_link : string -> option string := fun _ => None.
Definition small_files : string -> option Z := fun _ => Some 10%Z.
Definition echo_parser : nat -> string -> string -> reply string :=
  fun _ filename _ => Tree filename.

Lemma generator_yields_every_parsed_tree_once_witness :
  exists s,
    steps string plain_files no_link small_files echo_parser
      (start string 2 "/repo" [("Python", ["a.py"; "b.py"]); ("Ruby", ["c.rb"])]) s
    /\ at_phase s = Finished
    /\ Permutation (yielded s) ["/repo/a.py"%string; "/repo/b.py"%string].
Proof.
  destruct (generator_yields_every_parsed_tree_once string plain_files no_link
              small_files echo_parser 2 "/repo"
              [("Python", ["a.py"; "b.py"]); ("Ruby", ["c.rb"])]
              (fun _ _ _ _ => eq_refl)) as (_ & Hend & Hex).
  destruct Hex as (s & Hrun & Hfin); [lia|].
  exists s. split; [exact Hrun|]. split; [exact Hfin|].
  exact (Hend s Hrun Hfin).
Defined.

Lemma single_worker_yields_in_dispatch_order_witness :
  exists s,
    steps string plain_files no_link small_files echo_parser
      (start string 1 "/repo" [("Python", ["a.py"; "b.py"]); ("Java", ["C.java"])]) s
    /\ yielded s = ["/repo/a.py"%string; "/repo/b.py"%string; "/repo/C.java"%string].
Proof.
  destruct (run_finishes string plain_files no_link small_files echo_parser 1 3
              (start string 1 "/repo" [("Python", ["a.py"; "b.py"]); ("Java", ["C.java"])]))
    as (s & Hrun & Hfin);
    [exact (invariant_start string 1 "/repo"
              [("Python", ["a.py"; "b.py"]); ("Java", ["C.java"])]) | lia |].
  exists s. split; [exact Hrun|].
  destruct (single_worker_yields_in_dispatch_order string plain_files no_link
              small_files echo_parser "/repo"
              [("Python", ["a.py"; "b.py"]); ("Java", ["C.java"])] s Hrun) as (_ & Hend).
  exact (Hend Hfin).
Defined.

Lemma yielded_trees_come_from_the_parser_witness :
  exists thread_index filename language resolved size,
    thread_index < 1
    /\ In (filename, language)
         (snd (dispatch "/repo" [("Python", ["a.py"])]))
    /\ resolved_name plain_files no_link filename = Some resolved
    /\ small_files resolved = Some size /\ (size <= 200000)%Z
    /\ echo_parser thread_index resolved language = Tree "/repo/a.py"%string.
Proof.
  destruct (run_finishes string plain_files no_link small_files echo_parser 1 1
              (start string 1 "/repo" [("Python", ["a.py"])]))
    as (s & Hrun & Hfin);
    [exact (invariant_start string 1 "/repo" [("Python", ["a.py"])]) | lia |].
  apply (yielded_trees_come_from_the_parser string plain_files no_link small_files
           echo_parser 1 "/repo" [("Python", ["a.py"])] s "/repo/a.py"%string Hrun).
  rewrite <- (content_finished string plain_files no_link small_files echo_parser
                _ _ _ _ Hrun Hfin).
  rewrite (content_single string plain_files no_link small_files echo_parser _ _ _ Hrun).
  left. reflexivity.
Defined.

(** ** What the collector reads *)

Section Collector.
Variable UAST : Type.
Variable islink : string -> bool.
Variable readlink : string -> option string.
Variable stat_size : string -> option Z.
Variable parse_uast : nat -> string -> string -> reply UAST.

Local Abbreviation step := (step UAST islink readlink stat_size parse_uast).
Local Abbreviation steps := (steps UAST islink readlink stat_size parse_uast).

(** The outcome that the action from [s] to [s'] takes off the result
    queue, if it takes one. *)
Definition taken (s s' : state UAST) : list (option UAST) :=
  if List.length (queue_out s') <? List.length (queue_out s)
  then firstn 1 (queue_out s)
  else [].

(** A run together with the outcomes taken off the result queue on the
    way, in order. *)
Inductive reads : state UAST -> list (option UAST) -> state UAST -> Prop :=
| reads_none : forall s, reads s [] s
| reads_more : forall s1 rs s2 s3,
    reads s1 rs s2 -> step s2 s3 -> reads s1 (rs ++ taken s2 s3) s3.

(** An action of the run is either one turn of the collector loop or
    leaves the result queue to the workers. *)
Definition one_read (s s' : state UAST) : Prop :=
  exists result,
    taken s s' = [result]
    /\ queue_out s = result :: queue_out s'
    /\ at_phase s = Collecting /\ at_phase s' = Collecting
    /\ 0 < tasks s /\ tasks s' = tasks s - 1
    /\ received s' = received s + 1
    /\ yielded s' = yield_result UAST (yielded s) result.

Definition no_read (s s' : state UAST) : Prop :=
  taken s s' = []
  /\ (exists put, queue_out s' = queue_out s ++ put)
  /\ received s' = received s /\ yielded s' = yielded s
  /\ tasks s <= tasks s'.

Lemma step_reads_or_not : forall s s', step s s' -> one_read s s' \/ no_read s s'.
Proof.
  intros s s' Hstep.
  assert (Hsame : forall q : list (option UAST), (List.length q <? List.length q) = false)
    by (intros q; apply Nat.ltb_irrefl).
  destruct Hstep;
    try (right; unfold no_read, taken;
         cbn [queue_out received yielded tasks];
         rewrite ?Hsame;
         repeat split; try reflexivity; try lia;
         exists []; now rewrite app_nil_r).
  - left. exists result. unfold taken. cbn [queue_out received yielded tasks at_phase].
    assert (E : (List.length qo <? List.length (result :: qo)) = true)
      by (apply Nat.ltb_lt; cbn; lia).
    rewrite E. repeat split; assumption.
  - right. unfold no_read, taken. cbn [queue_out received yielded tasks].
    assert (E : (List.length (qo ++ puts (fst (handle_task UAST islink readlink stat_size
                                               parse_uast (List.length p1) t)))
                 <? List.length qo) = false)
      by (apply Nat.ltb_ge; rewrite length_app; lia).
    rewrite E. repeat split; try reflexivity; try lia. now eexists.
Qed.

Lemma reads_counted : forall s rs s',
  reads s rs s' ->
  received s' = received s + List.length rs
  /\ yielded s' = yielded s ++ trees rs.
Proof.
  intros s rs s' Hrun. induction Hrun as [s|s1 rs s2 s3 _ [IHr IHy] Hstep].
  - cbn. now rewrite Nat.add_0_r, app_nil_r.
  - destruct (step_reads_or_not _ _ Hstep)
      as [(result & Ht & _ & _ & _ & _ & _ & Hr & Hy)|(Ht & _ & Hr & Hy & _)];
      rewrite Ht, Hr, Hy, IHr, IHy.
    + rewrite length_app, trees_app, yield_result_trees, <- app_assoc. cbn [List.length].
      split; [lia | reflexivity].
    + now rewrite !app_nil_r.
Qed.

Lemma reads_steps : forall s rs s', reads s rs s' -> steps s s'.
Proof.
  intros s rs s' Hrun. induction Hrun as [s|s1 rs s2 s3 _ IH Hstep].
  - apply steps_refl.
  - eapply steps_more; eassumption.
Qed.

Lemma steps_reads : forall s s', steps s s' -> exists rs, reads s rs s'.
Proof.
  intros s s' Hrun. induction Hrun as [s|s1 s2 s3 _ [rs IH] Hstep].
  - exists []. apply reads_none.
  - eexists. eapply reads_more; eassumption.
Qed.

(** C4. In every run of the pipeline on a mapping with [n] allow-listed
    files and at least one worker: once the collector loop is reached, the
    pending count plus the number of outcomes read is [n]; the loop can be
    left exactly when the count is zero, whatever the result queue holds,
    and then [n] outcomes have been read; at most as many results are
    yielded as outcomes were read, hence at most [n]; no state short of
    the end is stuck, every action lowers a natural-number measure, and a
    finished state is reached, in which exactly [n] outcomes have been
    read and the result queue is empty.  The count of outcomes read is
    that of the outcomes really taken off the result queue: only a turn of
    the collector loop takes anything off that queue, it takes exactly the
    outcome at its head, while the pending count is positive, and lowers
    the pending count by one; every other action leaves the queue as it is
    or lets a worker add to it, and changes neither the number read nor
    what was yielded.  So the outcomes taken off the queue so far are as
    many as the number read, the results yielded are the non-null ones
    among them, in order, and what the pending count announces is what is
    still queued, being processed or waiting on the result queue. *)
Theorem collector_reads_one_outcome_per_task :
  forall ncpu target_dir classified s,
    0 < ncpu ->
    steps (start UAST ncpu target_dir classified) s ->
    let n := List.length (PipelineSpec.allow_listed_files classified) in
    (in_loop_or_after (at_phase s) -> tasks s + received s = n)
    /\ (past_loop (at_phase s) -> tasks s = 0 /\ received s = n)
    /\ (at_phase s = Collecting ->
        ((exists s', step s s' /\ at_phase s' = Joining) <-> tasks s = 0))
    /\ List.length (yielded s) <= received s <= n
    /\ (at_phase s <> Finished -> exists s', step s s')
    /\ (forall s', step s s' -> weight s' < weight s)
    /\ (exists s', steps s s' /\ at_phase s' = Finished
                   /\ tasks s' = 0 /\ received s' = n
                   /\ List.length (yielded s') <= n
                   /\ queue_out s' = [])
    /\ (exists rs, reads (start UAST ncpu target_dir classified) rs s)
    /\ (forall rs, reads (start UAST ncpu target_dir classified) rs s ->
          List.length rs = received s
          /\ yielded s = trees rs
          /\ (at_phase s = Finished -> List.length rs = n /\ queue_out s = []))
    /\ (forall s', step s s' -> one_read s s' \/ no_read s s')
    /\ queued_tasks (queue_in s) + busy_count (pool s) + List.length (queue_out s)
       = tasks s.
Proof.
  intros ncpu target_dir classified s Hn Hrun n.
  assert (Hinv : invariant UAST ncpu n s).
  { eapply steps_invariant; [apply invariant_start | exact Hrun]. }
  pose proof Hinv as [Hpool Hcount Hflow Hsent Hyield Horder Halive Hloop].
  assert (H1 : in_loop_or_after (at_phase s) -> tasks s + received s = n).
  { intros Hph. destruct (at_phase s); cbn in *; try lia; contradiction. }
  assert (H2 : past_loop (at_phase s) -> tasks s = 0 /\ received s = n).
  { intros Hph. specialize (Hloop Hph).
    destruct (at_phase s); cbn in *; try lia; contradiction. }
  assert (H3 : at_phase s = Collecting ->
               ((exists s', step s s' /\ at_phase s' = Joining) <-> tasks s = 0)).
  { intros Hph. split.
    - intros (s' & Hstep & Hph'). destruct Hstep; cbn in *; congruence.
    - now apply leave_loop_enabled. }
  assert (H4 : List.length (yielded s) <= received s <= n) by lia.
  assert (H5 : at_phase s <> Finished -> exists s', step s s').
  { now apply (step_possible UAST islink readlink stat_size parse_uast ncpu n). }
  assert (H6 : forall s', step s s' -> weight s' < weight s).
  { apply step_decreases. }
  assert (H7 : exists s', steps s s' /\ at_phase s' = Finished
                          /\ tasks s' = 0 /\ received s' = n
                          /\ List.length (yielded s') <= n
                          /\ queue_out s' = []).
  { destruct (run_finishes UAST islink readlink stat_size parse_uast ncpu n s Hinv Hn)
      as (s' & Hsteps & Hfin).
    assert (Hall : steps (start UAST ncpu target_dir classified) s').
    { clear -Hrun Hsteps. induction Hsteps as [|s1 s2 s3 _ IH Hstep]; [assumption|].
      eapply steps_more; [apply IH; assumption | eassumption]. }
    assert (Hinv' : invariant UAST ncpu n s') by (eapply steps_invariant; eassumption).
    destruct (finished_drained UAST islink readlink stat_size parse_uast _ _ _ _ Hall Hfin)
      as (_ & _ & Hqo).
    destruct Hinv' as [_ Hcount' _ _ Hyield' _ _ Hloop'].
    rewrite Hfin in *. cbn in *. specialize (Hloop' I).
    exists s'. repeat split; try assumption; lia. }
  assert (H8 : exists rs, reads (start UAST ncpu target_dir classified) rs s)
    by now apply steps_reads.
  assert (H9 : forall rs, reads (start UAST ncpu target_dir classified) rs s ->
                 List.length rs = received s
                 /\ yielded s = trees rs
                 /\ (at_phase s = Finished -> List.length rs = n /\ queue_out s = [])).
  { intros rs Hreads. destruct (reads_counted _ _ _ Hreads) as [Hr Hy].
    cbn [start received yielded app Nat.add] in Hr, Hy.
    split; [lia|]. split; [assumption|].
    intros Hfin.
    destruct (finished_drained UAST islink readlink stat_size parse_uast _ _ _ _ Hrun Hfin)
      as (_ & _ & Hqo).
    split; [|assumption]. rewrite Hfin in Hloop, Hcount. cbn in Hloop, Hcount.
    specialize (Hloop I). lia. }
  assert (H10 : forall s', step s s' -> one_read s s' \/ no_read s s')
    by apply step_reads_or_not.
  exact (conj H1 (conj H2 (conj H3 (conj H4 (conj H5 (conj H6 (conj H7
          (conj H8 (conj H9 (conj H10 Hflow)))))))))).
Qed.

End Collector.

Lemma collector_reads_one_outcome_per_task_witness :
  exists s',
    steps unit (fun _ => false) (fun _ => None) (fun _ => Some 10%Z)
      (fun _ _ _ => Tree tt)
      (start unit 2 "/repo" [("Python", ["a.py"; "b.py"]); ("Go", ["m.go"])]) s'
    /\ at_phase s' = Finished /\ tasks s' = 0 /\ received s' = 2
    /\ List.length (yielded s') <= 2
    /\ queue_out s' = [].
Proof.
  assert (Hcpu : 0 < 2) by lia.
  exact (proj1 (proj2 (proj2 (proj2 (proj2 (proj2 (proj2
    (collector_reads_one_outcome_per_task unit (fun _ => false) (fun _ => None)
       (fun _ => Some 10%Z) (fun _ _ _ => Tree tt) 2 "/repo"
       [("Python", ["a.py"; "b.py"]); ("Go", ["m.go"])] _ Hcpu
       (steps_refl _ _ _ _ _ _))))))))).
Defined.

(** ** Repository acquisition, continued *)

Section AcquisitionResult.
Variables Classified Result : Type.
Variable path_exists : string -> bool.
Variable mkdtemp : option string.
Variable git_clone : string -> string -> Repository.clone_result.
Variable classify_files : string -> option Classified.
Variable convert_uasts : string -> Classified -> option Result.
Variable rmtree : string -> bool.

Local Abbreviation convert_repository :=
  (Repository.convert_repository Classified Result path_exists mkdtemp git_clone
     classify_files convert_uasts rmtree).

(** The directory that gets classified, when there is one: the argument
    itself if it exists, else the fresh directory once the clone has
    succeeded. *)
Definition working_copy (url_or_path target_dir : string) : Prop :=
  (path_exists url_or_path = true /\ target_dir = url_or_path)
  \/ (path_exists url_or_path = false /\ mkdtemp = Some target_dir
      /\ git_clone url_or_path target_dir = Repository.Cloned).

Ltac trace_cases H :=
  cbn in H;
  repeat match type of H with
         | _ \/ _ => destruct H as [H|H]
         | False => destruct H
         end;
  try discriminate H; try (inversion H; subst; clear H).

(** X18. [convert_repository] returns a value exactly when every stage
    succeeds, the removal of the temporary directory included, and the
    value is that of [convert_uasts] on the working copy and its
    classification; in every other case it raises, so an exception raised
    by [rmtree] in the [finally] clause replaces the value.  A clone is
    attempted only for an argument that does not exist, from the argument
    into the fresh directory; the classifier and [convert_uasts] run only
    on the working copy; and when the temporary directory cannot be made
    nothing else is attempted. *)
Theorem convert_repository_returns_when_all_stages_succeed : forall url_or_path,
  let tr := fst (convert_repository url_or_path) in
  (forall r,
     snd (convert_repository url_or_path) = Repository.Returned Result r
     <-> exists target_dir classified,
           working_copy url_or_path target_dir
           /\ classify_files target_dir = Some classified
           /\ convert_uasts target_dir classified = Some r
           /\ (path_exists url_or_path = false -> rmtree target_dir = true))
  /\ (forall src dst, In (Repository.Clone src dst) tr ->
        path_exists url_or_path = false /\ src = url_or_path /\ mkdtemp = Some dst)
  /\ (forall d, In (Repository.Classify d) tr -> working_copy url_or_path d)
  /\ (forall d, In (Repository.Convert d) tr ->
        working_copy url_or_path d /\ classify_files d <> None)
  /\ (path_exists url_or_path = false -> mkdtemp = None ->
      convert_repository url_or_path = ([], Repository.Raised Result)).
Proof.
  intros url_or_path tr. subst tr.
  assert (Hback : forall r target_dir classified,
            working_copy url_or_path target_dir ->
            classify_files target_dir = Some classified ->
            convert_uasts target_dir classified = Some r ->
            (path_exists url_or_path = false -> rmtree target_dir = true) ->
            snd (convert_repository url_or_path) = Repository.Returned Result r).
  { intros r target_dir classified Hwc Hc Hr Hrm.
    unfold Repository.convert_repository, Repository.acquire, Repository.process,
      Repository.cleanup.
    destruct Hwc as [[Hex ->]|(Hex & Hmk & Hcl)]; rewrite Hex; cbn [negb].
    - now rewrite Hc, Hr.
    - rewrite Hmk, Hcl, Hc, Hr, (Hrm Hex). reflexivity. }
  split; [intros r; split; [|intros (t & c & Hwc & Hc & Hr & Hrm); now apply (Hback r t c)]|].
  - unfold Repository.convert_repository, Repository.acquire, Repository.process,
      Repository.cleanup, working_copy.
    destruct (path_exists url_or_path) eqn:Hex; cbn [negb].
    + destruct (classify_files url_or_path) as [c|] eqn:Hc;
        [destruct (convert_uasts url_or_path c) as [r0|] eqn:Hr|];
        cbn [fst snd]; intros E; inversion E; subst.
      exists url_or_path, c. repeat split; auto. discriminate.
    + destruct mkdtemp as [t|] eqn:Hmk; [|discriminate].
      destruct (git_clone url_or_path t) eqn:Hcl; try discriminate.
      destruct (classify_files t) as [c|] eqn:Hc;
        [destruct (convert_uasts t c) as [r0|] eqn:Hr|];
        destruct (rmtree t) eqn:Hrm;
        cbn [fst snd]; intros E; inversion E; subst.
      exists t, c. repeat split; auto.
  - unfold Repository.convert_repository, Repository.acquire, Repository.process,
      Repository.cleanup, working_copy.
    destruct (path_exists url_or_path) eqn:Hex; cbn [negb].
    + destruct (classify_files url_or_path) as [c|] eqn:Hc;
        [destruct (convert_uasts url_or_path c) as [r0|] eqn:Hr|];
        cbn [fst snd app];
        (split; [intros src dst Hin; trace_cases Hin|]);
        (split; [intros d Hin; trace_cases Hin; auto|]);
        (split; [intros d Hin; trace_cases Hin; (split; [auto | congruence])|]);
        discriminate.
    + destruct mkdtemp as [t|] eqn:Hmk.
      2:{ cbn [fst]. split; [intros src dst []|]. split; [intros d []|].
          split; [intros d []|]. reflexivity. }
      destruct (git_clone url_or_path t) eqn:Hcl.
      * destruct (classify_files t) as [c|] eqn:Hc;
          [destruct (convert_uasts t c) as [r0|] eqn:Hr|];
          cbn [fst snd app];
          (split; [intros src dst Hin; trace_cases Hin; auto|]);
          (split; [intros d Hin; trace_cases Hin; auto|]);
          (split; [intros d Hin; trace_cases Hin; (split; [auto | congruence])|]);
          discriminate.
      * cbn [fst].
        split; [intros src dst Hin; trace_cases Hin; auto|].
        split; [intros d Hin; trace_cases Hin|].
        split; [intros d Hin; trace_cases Hin|]. discriminate.
      * cbn [fst].
        split; [intros src dst Hin; trace_cases Hin; auto|].
        split; [intros d Hin; trace_cases Hin|].
        split; [intros d Hin; trace_cases Hin|]. discriminate.
Qed.

End AcquisitionResult.

Lemma convert_repository_returns_when_all_stages_succeed_witness :
  snd (Repository.convert_repository (list string) nat
         (fun p => String.eqb p "/src/repo") (Some "/tmp/repo2nbow-k3"%string)
         (fun _ _ => Repository.Cloned) (fun d => Some [d])
         (fun _ c => Some (List.length c)) (fun _ => true)
         "https://example.org/r.git")
  = Repository.Returned nat 1.
Proof.
  apply (convert_repository_returns_when_all_stages_succeed (list string) nat
           (fun p => String.eqb p "/src/repo") (Some "/tmp/repo2nbow-k3"%string)
           (fun _ _ => Repository.Cloned) (fun d => Some [d])
           (fun _ c => Some (List.length c)) (fun _ => true)
           "https://example.org/r.git").
  exists "/tmp/repo2nbow-k3"%string, ["/tmp/repo2nbow-k3"%string].
  split; [|split; [reflexivity | split; reflexivity]].
  right. repeat split.
Defined.

(** ** Stripping twice *)

Lemma lstrip_idem : forall s, lstrip (lstrip s) = lstrip s.
Proof.
  induction s as [|c s IH]; [reflexivity|]. simpl.
  destruct (isspace c) eqn:E; [exact IH|]. simpl. now rewrite E.
Qed.

Lemma rstrip_idem : forall s, rstrip (rstrip s) = rstrip s.
Proof.
  induction s as [|c s IH]; [reflexivity|]. cbn [rstrip].
  destruct (rstrip s) as [|d r] eqn:Hr.
  - destruct (isspace c) eqn:E; [reflexivity|]. cbn [rstrip]. now rewrite E.
  - change (rstrip (String c (String d r)))
      with (match rstrip (String d r) with
            | EmptyString => if isspace c then EmptyString else String c EmptyString
            | String a b => String c (String a b)
            end).
    now rewrite IH.
Qed.

Lemma lstrip_rstrip : forall s, lstrip s = s -> lstrip (rstrip s) = rstrip s.
Proof.
  intros [|c s] H; [reflexivity|].
  assert (Hc : isspace c = false).
  { destruct (isspace c) eqn:E; [|reflexivity]. exfalso.
    simpl in H. rewrite E in H.
    assert (Hlen : String.length (lstrip s) <= String.length s).
    { clear. induction s as [|c s IH]; simpl; [lia|]. destruct (isspace c); simpl; lia. }
    rewrite H in Hlen. simpl in Hlen. lia. }
  cbn [rstrip]. destruct (rstrip s); rewrite ?Hc; simpl; now rewrite Hc.
Qed.

Lemma strip_idem : forall s, strip (strip s) = strip s.
Proof.
  intros s. unfold strip.
  rewrite (lstrip_rstrip (lstrip s) (lstrip_idem s)). apply rstrip_idem.
Qed.

(** ** The command line entry *)

Definition newline : string := String "010" EmptyString.
Definition carriage_return : string := String "013" EmptyString.

(** A text with one name per line, each line ended by [terminator]. *)
Definition unlines (terminator : string) (names : list string) : string :=
  joined (map (fun l => (l ++ terminator)%string) names).

Definition no_newline (l : string) : bool :=
  all_of (fun c => negb (Ascii.eqb c "010")) l.

(** Neither a line feed nor a carriage return occurs in [l]. *)
Definition one_line (l : string) : bool :=
  all_of (fun c => negb (Ascii.eqb c "010") && negb (Ascii.eqb c "013")) l.

Lemma one_line_no_newline : forall l, one_line l = true -> no_newline l = true.
Proof.
  unfold one_line, no_newline. induction l as [|c l IH]; [reflexivity|].
  simpl. intros H. apply andb_true_iff in H as [Hc Hl].
  apply andb_true_iff in Hc as [Hc _]. now rewrite Hc, IH.
Qed.

Lemma translate_one_line : forall l rest,
  one_line l = true ->
  Entry.translate_from false (l ++ rest) = (l ++ Entry.translate_from false rest)%string.
Proof.
  induction l as [|c l IH]; intros rest H; [reflexivity|].
  unfold one_line in H. simpl in H. apply andb_true_iff in H as [Hc Hl].
  apply andb_true_iff in Hc as [Hlf Hcr].
  apply negb_true_iff in Hlf. apply negb_true_iff in Hcr.
  cbn [append Entry.translate_from]. rewrite Hcr, Hlf. f_equal. now apply IH.
Qed.

Lemma translate_unlines : forall terminator names,
  terminator = newline \/ terminator = (carriage_return ++ newline)%string ->
  Forall (fun l => one_line l = true) names ->
  Entry.universal_newlines (unlines terminator names) = unlines newline names.
Proof.
  intros terminator names Hterm Hall. unfold Entry.universal_newlines, unlines.
  induction Hall as [|l names Hl _ IH]; [reflexivity|].
  cbn [map joined fold_right].
  fold (joined (map (fun l0 => (l0 ++ terminator)%string) names)).
  fold (joined (map (fun l0 => (l0 ++ newline)%string) names)).
  remember (joined (map (fun l0 => (l0 ++ terminator)%string) names)) as text.
  remember (joined (map (fun l0 => (l0 ++ newline)%string) names)) as lines.
  rewrite !append_assoc, translate_one_line by assumption. f_equal.
  clear Heqtext Heqlines.
  destruct Hterm as [->| ->]; cbn; now rewrite IH.
Qed.

Lemma lines_from_line : forall l cur rest,
  no_newline l = true ->
  Entry.lines_from cur (l ++ newline ++ rest)
  = (cur ++ l ++ newline)%string :: Entry.lines_from "" rest.
Proof.
  induction l as [|c l IH]; intros cur rest H.
  - reflexivity.
  - unfold no_newline in H. simpl in H. apply andb_true_iff in H as [Hc Hl].
    apply negb_true_iff in Hc.
    cbn [append Entry.lines_from]. rewrite Hc.
    rewrite (IH _ rest Hl), append_assoc. reflexivity.
Qed.

Lemma lines_of_unlines : forall names,
  Forall (fun l => no_newline l = true) names ->
  Entry.lines_from "" (unlines newline names)
  = map (fun l => (l ++ newline)%string) names.
Proof.
  unfold unlines.
  induction 1 as [|l names Hl _ IH]; [reflexivity|].
  cbn [map joined fold_right].
  fold (joined (map (fun l0 => (l0 ++ newline)%string) names)).
  rewrite append_assoc, (lines_from_line l "" _ Hl), IH. reflexivity.
Qed.

(** X19. What is read from a list file is stripped.  A list file that
    holds one name per line, each line ended by a line feed or by a
    carriage return and a line feed, the names themselves being free of
    both characters and of surrounding whitespace, is read back as these
    names in the same order; an empty line is not skipped: it gives the
    empty name. *)
Theorem list_file_round_trip :
  (forall raw r, In r (map strip (Entry.readlines raw)) -> strip r = r)
  /\ (forall terminator names,
        terminator = newline \/ terminator = (carriage_return ++ newline)%string ->
        Forall (fun l => strip l = l /\ one_line l = true) names ->
        map strip (Entry.readlines (unlines terminator names)) = names).
Proof.
  split.
  - intros raw r Hin. apply in_map_iff in Hin as (l & <- & _). apply strip_idem.
  - intros terminator names Hterm Hall. unfold Entry.readlines.
    rewrite translate_unlines;
      [|assumption|eapply Forall_impl; [|exact Hall]; now intros l [_ H]].
    rewrite lines_of_unlines
      by (eapply Forall_impl; [|exact Hall]; intros l [_ H];
          now apply one_line_no_newline).
    rewrite map_map.
    induction Hall as [|l names [Hl _] _ IH]; [reflexivity|].
    cbn [map]. rewrite IH. f_equal.
    rewrite strip_app_space by reflexivity. exact Hl.
Qed.

Lemma list_file_round_trip_witness :
  map strip
    (Entry.readlines
       (unlines (carriage_return ++ newline) ["https://github.com/a/b"; ""; "/src/repo"]))
  = ["https://github.com/a/b"; ""; "/src/repo"]%string.
Proof.
  apply (proj2 list_file_round_trip).
  - right. reflexivity.
  - repeat constructor.
Defined.

Section EntryCalls.
Variable Args : Type.
Variable input : Args -> list string.
Variable output : Args -> string.
Variable processes : Args -> option Z.
Variable launch_ok : bool.
Variable debug_enabled : bool.
Variable isfile : string -> bool.
Variable read_text : string -> option string.
Variable makedirs : string -> bool.
Variable pool_starts : option Z -> bool.
Variable starmap : list (string * Args) -> bool.

Local Abbreviation read_input := (Entry.read_input Args isfile read_text).
Local Abbreviation repos2_entry :=
  (Entry.repos2_entry Args input output processes launch_ok debug_enabled isfile
     read_text makedirs pool_starts starmap).
Local Abbreviation launch :=
  (Entry.ensure_bblfsh_is_running_noexc Args launch_ok debug_enabled).

(** The repositories an input list names: an entry that is a file
    stands for its lines, any other entry for itself. *)
Definition named (entries : list string) : list string :=
  flat_map
    (fun i =>
       if isfile i then
         match read_text i with
         | Some raw => map strip (Entry.readlines raw)
         | None => []
         end
       else [i])
    entries.

(** No entry is a file that cannot be read. *)
Definition readable (entries : list string) : Prop :=
  forall i, In i entries -> isfile i = true -> read_text i <> None.




Lemma read_inputs_ok : forall entries tr inputs,
  readable entries ->
  fold_left read_input entries (tr, Some inputs)
  = (tr ++ map Entry.Open (filter isfile entries), Some (inputs ++ named entries)).
Proof.
  induction entries as [|i entries IH]; intros tr inputs Hr.
  - cbn. now rewrite !app_nil_r.
  - assert (Hrest : readable entries) by (intros j Hj; apply Hr; now right).
    cbn [fold_left Entry.read_input filter named flat_map].
    destruct (isfile i) eqn:Hfile.
    + destruct (read_text i) as [raw|] eqn:Htext.
      * rewrite IH by assumption. cbn [map]. fold (named entries).
        now rewrite <- !app_assoc.
      * exfalso. apply (Hr i); [now left | assumption | assumption].
    + rewrite IH by assumption. fold (named entries). now rewrite <- !app_assoc.
Qed.



Lemma product_one : forall (inputs : list string) (args : Args),
  Entry.product inputs [args] = map (fun r => (r, args)) inputs.
Proof.
  intros inputs args. unfold Entry.product.
  induction inputs as [|r inputs IH]; [reflexivity|].
  cbn [flat_map map app]. now f_equal.
Qed.


(** X20. When every list file can be read, the output directory can be
    made, [args.processes] is [None] or at least 1 and the pool can be
    started, the payload is handed to [starmap] once for each repository
    named, in the order of the input list, each time with [args] itself;
    this happens after the attempt to launch the server, whatever its
    result, after the files have been read, after the output directory
    has been made and after the pool has been made; the pool is then
    terminated, and the call returns exactly when [starmap] does.  When
    no entry is a file, the repositories are the entries. *)
Theorem repos2_entry_runs_payload_per_repository : forall args,
  readable (input args) ->
  makedirs (output args) = true ->
  Entry.valid_processes (processes args) = true ->
  pool_starts (processes args) = true ->
  let calls := map (fun r => (r, args)) (named (input args)) in
  repos2_entry args
  = (launch ++ map Entry.Open (filter isfile (input args))
       ++ [Entry.Makedirs (output args); Entry.MakePool (processes args);
           Entry.Starmap calls; Entry.Terminate],
     starmap calls)
  /\ ((forall i, In i (input args) -> isfile i = false) ->
      calls = map (fun i => (i, args)) (input args)).
Proof.
  intros args Hr Hmk Hvalid Hstart calls. split.
  - unfold Entry.repos2_entry, Entry.run_pool. rewrite read_inputs_ok by assumption.
    rewrite Hmk, Hvalid, Hstart, product_one. reflexivity.
  - intros Hnone. subst calls. f_equal. unfold named.
    induction (input args) as [|i entries IH]; [reflexivity|].
    cbn [flat_map]. rewrite (Hnone i) by now left.
    cbn [app]. f_equal. apply IH.
    + intros j Hj. apply Hr. now right.
    + intros j Hj. apply Hnone. now right.
Qed.


End EntryCalls.

(** A command line with one list file and one URL. *)
Definition sample_args : list string * string :=
  (["repos.txt"; "https://example.org/r.git"]%string, "out"%string).

Definition sample_list : string :=
  ("/src/x" ++ carriage_return ++ newline ++ " /src/y" ++ newline)%string.

Lemma repos2_entry_runs_payload_per_repository_witness :
  Entry.repos2_entry (list string * string) fst snd (fun _ => Some 4%Z) false false
    (fun p => String.eqb p "repos.txt") (fun _ => Some sample_list)
    (fun _ => true) (fun _ => true) (fun _ => true) sample_args
  = ([Entry.Launch;
      Entry.LogWarning "Failed to ensure that the Babelfish server is running.";
      Entry.Open "repos.txt"; Entry.Makedirs "out"; Entry.MakePool (Some 4%Z);
      Entry.Starmap
        [("/src/x"%string, sample_args); ("/src/y"%string, sample_args);
         ("https://example.org/r.git"%string, sample_args)];
      Entry.Terminate],
     true).
Proof.
  destruct (repos2_entry_runs_payload_per_repository (list string * string) fst snd
              (fun _ => Some 4%Z) false false
              (fun p => String.eqb p "repos.txt") (fun _ => Some sample_list)
              (fun _ => true) (fun _ => true) (fun _ => true) sample_args) as [H _].
  - intros i _ _. discriminate.
  - reflexivity.
  - reflexivity.
  - reflexivity.
  - rewrite H. reflexivity.
Defined.


(** ** Construction *)

Lemma nth_error_constant : forall {A} (x : A) n start i,
  i < n -> nth_error (map (fun _ => x) (seq start n)) i = Some x.
Proof.
  intros A x. induction n as [|n IH]; intros start i Hi; [lia|].
  destruct i as [|i]; [reflexivity|]. cbn [seq map nth_error]. apply IH. lia.
Qed.

(** X22. [__init__] builds one client for each CPU, so that every worker index
    below the number of CPUs has its client, and all of them with the same
    endpoint, which is never empty: the argument when it is a non-empty
    string, else "0.0.0.0:9432".  The classifier is the argument when one
    is given, even the empty string; else the "enry" found by [which];
    else the bare name "enry". *)
Theorem init_builds_a_client_per_cpu :
  forall cpu_count which_enry tempdir linguist bblfsh_endpoint timeout,
  let self := Init.__init__ cpu_count which_enry tempdir linguist bblfsh_endpoint timeout in
  let endpoint := Init.or_else bblfsh_endpoint "0.0.0.0:9432" in
  List.length (Init._bblfsh self) = cpu_count
  /\ (forall i, i < cpu_count -> nth_error (Init._bblfsh self) i = Some endpoint)
  /\ endpoint <> EmptyString
  /\ (forall e, bblfsh_endpoint = Some e -> e <> EmptyString -> endpoint = e)
  /\ (forall l, linguist = Some l -> Init._linguist self = l)
  /\ (linguist = None ->
      Init._linguist self = match which_enry with Some w => w | None => "enry" end)
  /\ Init._stem_threshold self = 6.
Proof.
  intros cpu_count which_enry tempdir linguist bblfsh_endpoint timeout self endpoint.
  subst self endpoint. unfold Init.__init__. cbn [Init._bblfsh Init._linguist Init._stem_threshold].
  split; [now rewrite length_map, length_seq|].
  split; [intros i Hi; now apply nth_error_constant|].
  split.
  { unfold Init.or_else. destruct bblfsh_endpoint as [e|]; [|discriminate].
    destruct (truthy e) eqn:E; [now apply truthy_true | discriminate]. }
  split.
  { intros e -> He. unfold Init.or_else. apply truthy_true in He. now rewrite He. }
  split; [now intros l ->|].
  split; [now intros ->|reflexivity].
Qed.

Lemma init_builds_a_client_per_cpu_witness :
  nth_error (Init._bblfsh (Init.__init__ 4 None None (Some ""%string) (Some ""%string) 10)) 3
  = Some "0.0.0.0:9432"%string
  /\ Init._linguist (Init.__init__ 4 None None (Some ""%string) (Some ""%string) 10)
     = ""%string.
Proof.
  destruct (init_builds_a_client_per_cpu 4 None None (Some ""%string) (Some ""%string) 10)
    as (_ & Hnth & _ & _ & Hling & _).
  split; [apply Hnth; lia | now apply Hling].
Defined.

(** ** The file names of the tasks *)

Lemma prefix_app : forall a b, prefix a (a ++ b) = true.
Proof.
  induction a as [|c a IH]; intros b; [now destruct b|].
  simpl. destruct (ascii_dec c c); [apply IH | congruence].
Qed.

(** X23. Every task names a classified file of a supported language, joined to
    the directory as [os.path.join] does: a name the classifier reports
    with a leading slash is used as it is, whatever the directory; any
    other name gives a path that begins with the directory. *)
Theorem dispatched_file_names : forall target_dir classified filename language,
  In (filename, language) (snd (dispatch target_dir classified)) ->
  exists files f,
    In (language, files) classified /\ In f files
    /\ supported language = true
    /\ filename = path_join target_dir f
    /\ (prefix "/" f = true -> filename = f)
    /\ (prefix "/" f = false -> prefix target_dir filename = true).
Proof.
  intros target_dir classified filename language Hin.
  rewrite dispatch_closed in Hin. cbn [snd] in Hin.
  apply in_map_iff in Hin as ([lang f] & E & Hin).
  unfold task_of in E. cbn [fst snd] in E. inversion E; subst. clear E.
  unfold PipelineSpec.allow_listed_files in Hin.
  apply in_flat_map in Hin as ([lang files] & Hentry & Hin).
  destruct (in_dec string_dec lang PipelineSpec.allow_list) as [Hok|]; [|destruct Hin].
  apply in_map_iff in Hin as (f' & E & Hf). inversion E; subst. clear E.
  exists files, f. split; [assumption|]. split; [assumption|].
  split; [now apply supported_allow_list|]. split; [reflexivity|].
  unfold path_join. split; intros Hp; rewrite Hp; [reflexivity|].
  destruct (negb (truthy target_dir) || ends_with_sep target_dir); apply prefix_app.
Qed.

Lemma dispatched_file_names_witness :
  exists files f,
    In ("Python"%string, files) [("Python"%string, ["/etc/x.py"%string])]
    /\ In f files /\ supported "Python" = true
    /\ "/etc/x.py"%string = path_join "/repo" f
    /\ (prefix "/" f = true -> "/etc/x.py"%string = f)
    /\ (prefix "/" f = false -> prefix "/repo" "/etc/x.py" = true).
Proof.
  apply (dispatched_file_names "/repo" [("Python"%string, ["/etc/x.py"%string])]
           "/etc/x.py" "Python").
  left. reflexivity.
Defined.
